(** * ACME assembler language support: scanner, statement classifier,
      position lookup and directive search

    Shallow embedding of [src/language/language_asm.js]:
    [AcmeGrammar.fuzzySearch], [ParserIterator], [AcmeParser.parse],
    [AcmeParser.lexer] and [AcmeParser.getTokenAtSourcePos].

    JavaScript strings are sequences of UTF-16 code units; they are modelled
    as lists of code units ([Z]).  [charCodeAt] answers [NaN] outside the
    string, modelled as [None].  JavaScript numbers used as offsets and
    counters are modelled as [Z] (the sentinel [-1] of [tokensPerLineOfs]
    is kept as it is). *)

From Stdlib Require Import ZArith List Bool String Ascii Lia.
Import ListNotations.
Local Open Scope Z_scope.

(* ------------------------------------------------------------------ *)
(** ** JavaScript strings *)
(* ------------------------------------------------------------------ *)

Definition JsString := list Z.

(** Code units of a literal. *)
Definition js (s : string) : JsString :=
  map (fun a => Z.of_N (N_of_ascii a)) (list_ascii_of_string s).

(** [s.length] of a string or of an array. *)
Definition jsLength {A : Type} (s : list A) : Z := Z.of_nat (List.length s).

(** [s.charCodeAt(i)]: [None] stands for [NaN] (index outside the string). *)
Definition charCodeAt (s : JsString) (i : Z) : option Z :=
  if i <? 0 then None else nth_error s (Z.to_nat i).

(** [c == k] for a number [c] and a char code constant [k]; [NaN] equals
    nothing. *)
Definition codeEq (c : option Z) (k : Z) : bool :=
  match c with
  | Some z => z =? k
  | None => false
  end.

(** [s.substring(a, b)] for integer arguments: both are clamped to
    [0, length] and swapped when [a > b]. *)
Definition clamp (n : Z) (x : Z) : Z := Z.max 0 (Z.min x n).

Definition substring (s : JsString) (a b : Z) : JsString :=
  let a' := clamp (jsLength s) a in
  let b' := clamp (jsLength s) b in
  let lo := Z.min a' b' in
  let hi := Z.max a' b' in
  firstn (Z.to_nat (hi - lo)) (skipn (Z.to_nat lo) s).

(** White space and line terminators removed by [String.prototype.trim]. *)
Definition jsIsTrimSpace (c : Z) : bool :=
  ((9 <=? c) && (c <=? 13)) || (c =? 32) || (c =? 160) || (c =? 5760)
  || ((8192 <=? c) && (c <=? 8202)) || (c =? 8232) || (c =? 8233)
  || (c =? 8239) || (c =? 8287) || (c =? 12288) || (c =? 65279).

Fixpoint trimStart (s : JsString) : JsString :=
  match s with
  | c :: s' => if jsIsTrimSpace c then trimStart s' else s
  | [] => []
  end.

Definition trim (s : JsString) : JsString :=
  rev (trimStart (rev (trimStart s))).

(** [a == b] on strings. *)
Fixpoint jsStringEq (a b : JsString) : bool :=
  match a, b with
  | [], [] => true
  | x :: a', y :: b' => (x =? y) && jsStringEq a' b'
  | _, _ => false
  end.

(** [s.startsWith(q)] *)
Fixpoint startsWith (s q : JsString) : bool :=
  match q with
  | [] => true
  | y :: q' =>
      match s with
      | x :: s' => (x =? y) && startsWith s' q'
      | [] => false
      end
  end.

(** [StringToNumber] restricted to what the comparison [c == '.'] of
    [getTokenAtSourcePos] needs: the empty string is [0], a string of
    decimal digits is its value, and any other string of this fragment
    (in particular ["."]) is [NaN] ([None]). *)
Definition isDigitCode (c : Z) : bool := (48 <=? c) && (c <=? 57).

Definition stringToNumber (s : JsString) : option Z :=
  if forallb isDigitCode s
  then Some (fold_left (fun acc c => 10 * acc + (c - 48)) s 0)
  else None.

(** [c == s] for a number [c] and a string [s]: loose equality converts
    the string to a number and compares numbers; [NaN] equals nothing. *)
Definition looseEqNumStr (c : option Z) (s : JsString) : bool :=
  match c, stringToNumber s with
  | Some x, Some y => x =? y
  | _, _ => false
  end.

(* ------------------------------------------------------------------ *)
(** ** Character codes *)
(* ------------------------------------------------------------------ *)

(** Modelled from the spec: the [CharCode] table of [utilities/utils] is not
    part of the sources at hand; its entries are the ASCII codes of the
    characters the spec names. *)
Module CharCode.
Definition LineFeed : Z := 10.
Definition CarriageReturn : Z := 13.
Definition Exclamation : Z := 33.
Definition DoubleQuote : Z := 34.
Definition SingleQuote : Z := 39.
Definition Plus : Z := 43.
Definition Period : Z := 46.
Definition Semicolon : Z := 59.
Definition Underscore : Z := 95.
End CharCode.

(* ------------------------------------------------------------------ *)
(** ** ACME grammar: directive vocabulary and its prefix search *)
(* ------------------------------------------------------------------ *)

Module AcmeGrammar.

Definition pseudoOpcodes : list JsString := map js
  [ "fill"; "fi"; "align"; "convtab"; "ct"; "text"; "tx"; "pet"; "raw";
    "scr"; "scrxor"; "to"; "source"; "src"; "binary"; "bin"; "zone"; "zn";
    "sl"; "svl"; "sal"; "pdb"; "if"; "ifdef"; "for"; "do"; "endoffile";
    "warn"; "error"; "serious"; "macro"; "set"; "initmem"; "pseudopc";
    "cpu"; "al"; "as"; "rl"; "rs"; "cbm"; "subzone"; "sz"; "realpc";
    "previouscontext"; "byte"; "by"; "word"; "wo" ]%string.

(** Body of [for (let item of pseudoOpcodes)]: [items] is the array
    being filled by [push]. *)
Fixpoint collect (query : JsString) (rest : list JsString)
                 (items : list JsString) : list JsString :=
  match rest with
  | [] => items
  | item :: rest' =>
      let token := js "!" ++ item in
      if startsWith token query
      then collect query rest' (items ++ [token])
      else collect query rest' items
  end.

(** [fuzzySearch(query)]; [None] is [null]. *)
Definition fuzzySearch (query : JsString) : option (list JsString) :=
  if jsLength query <? 1 then None
  else
    let items :=
      if codeEq (charCodeAt query 0) CharCode.Exclamation
      then collect query pseudoOpcodes []
      else [] in
    if jsLength items <? 1 then None else Some items.

(** The search as the specification words it: every directive name with
    [!] prepended that starts with the query, in declaration order. *)
Definition matchingDirectives (query : JsString) : list JsString :=
  filter (fun candidate => startsWith candidate query)
         (map (fun name => js "!" ++ name) pseudoOpcodes).

End AcmeGrammar.

(* ------------------------------------------------------------------ *)
(** ** Positional primitives of [language/language_base] *)
(* ------------------------------------------------------------------ *)

(** Modelled from the spec: [Range] is declared in [language/language_base],
    which is not part of the sources at hand.  A source span fixes the
    offset, row and column of its first character at creation and grows by
    one character with [inc]. *)
Module Range.
Record t := mk { offset : Z; row : Z; col : Z; length : Z }.

Definition new (ofs row col : Z) : t := mk ofs row col 0.

Definition inc (r : t) : t :=
  mk (offset r) (row r) (col r) (length r + 1).

(** First offset after the span. *)
Definition stop (r : t) : Z := offset r + length r.
End Range.

Module TokenType.
Inductive t := LineBreak | Comment | Identifier | Macro | Reference | String.

Definition eqb (a b : t) : bool :=
  match a, b with
  | LineBreak, LineBreak | Comment, Comment | Identifier, Identifier
  | Macro, Macro | Reference, Reference | String, String => true
  | _, _ => false
  end.
End TokenType.

(** Modelled from the spec: [Token] is declared in [language/language_base].
    A token has a kind, the source buffer, its span and the flag "first on
    its logical line", which is clear at creation and written by
    [setFirstFlag]; its text is the part of the buffer under the span. *)
Module Token.
Record t := mk {
  type : TokenType.t;
  src : JsString;
  range : Range.t;
  first : bool
}.

Definition new (ty : TokenType.t) (s : JsString) (r : Range.t) : t :=
  mk ty s r false.

Definition setFirstFlag (tk : t) : t :=
  mk (type tk) (src tk) (range tk) true.

Definition text (tk : t) : JsString :=
  substring (src tk) (Range.offset (range tk)) (Range.stop (range tk)).
End Token.

Module StatementType.
Inductive t := Definition_ | Comment.

Definition eqb (a b : t) : bool :=
  match a, b with
  | Definition_, Definition_ | Comment, Comment => true
  | _, _ => false
  end.
End StatementType.

(** Modelled from the spec: [Statement] is declared in
    [language/language_base].  A statement has a kind and refers to the
    token stream of its syntax tree by start index and count. *)
Module Statement.
Record t := mk {
  type : StatementType.t;
  tokenOffset : Z;
  tokenCount : Z
}.
End Statement.

(** Modelled from the spec: [AbstractSyntaxTree] is declared in
    [language/language_base].  It owns the ordered tokens, the ordered
    statements and the statements that are definitions; each [add...]
    appends. *)
Module AbstractSyntaxTree.
Record t := mk {
  tokens : list Token.t;
  statements : list Statement.t;
  definitions : list Statement.t
}.

Definition empty : t := mk [] [] [].

Definition addToken (ast : t) (tk : Token.t) : t :=
  mk (tokens ast ++ [tk]) (statements ast) (definitions ast).

Definition addStatement (ast : t) (s : Statement.t) : t :=
  mk (tokens ast) (statements ast ++ [s]) (definitions ast).

Definition addDefinition (ast : t) (s : Statement.t) : t :=
  mk (tokens ast) (statements ast) (definitions ast ++ [s]).

(** [tokens[i]]; [None] is [undefined]. *)
Definition tokenAt (l : list Token.t) (i : Z) : option Token.t :=
  if i <? 0 then None else nth_error l (Z.to_nat i).

(** The write [token.setFirstFlag()] right after [ast.addToken(token)]:
    the stream holds the very object [token], so the write is seen in
    the stream's last entry. *)
Definition setFirstFlagOfLast (ast : t) : t :=
  match rev (tokens ast) with
  | [] => ast
  | tk :: before =>
      mk (rev before ++ [Token.setFirstFlag tk])
         (statements ast) (definitions ast)
  end.
End AbstractSyntaxTree.

(* ------------------------------------------------------------------ *)
(** ** External helpers *)
(* ------------------------------------------------------------------ *)

(** The character classes of [ParserHelper] ([utilities/utils]) and the
    opcode table behind [Token.isOpcode] ([settings/settings]) are not
    part of the sources at hand: the scanner is parameterised by them.
    Modelled from the spec: symbol-constituent characters are
    alphanumeric characters, the underscore and the period, so neither the
    end-of-input sentinel [0] nor [+] is one; the quote characters are not
    alphabetic. *)
Class Helpers := {
  isAlpha : Z -> bool;
  isSymbolChar : Z -> bool;
  isWhitespace : Z -> bool;
  (** is this identifier text a reserved instruction name? *)
  isOpcodeName : JsString -> bool;
  isSymbolChar_sentinel : isSymbolChar 0 = false;
  isSymbolChar_plus : isSymbolChar CharCode.Plus = false;
  isAlpha_singleQuote : isAlpha CharCode.SingleQuote = false;
  isAlpha_doubleQuote : isAlpha CharCode.DoubleQuote = false
}.

(** A character class applied to the result of [charCodeAt]: the classes
    are comparisons against char codes, which [NaN] fails. *)
Definition onCode (p : Z -> bool) (c : option Z) : bool :=
  match c with
  | Some z => p z
  | None => false
  end.

(** Modelled from the spec: an instance of the helpers for running the
    scanner on concrete inputs.  Alphabetic characters are the ASCII
    letters; symbol-constituent characters are letters, digits and the
    underscore; the opcode table holds a few 6502 mnemonics. *)
Module SpecHelpers.
Definition isAlpha (c : Z) : bool :=
  ((65 <=? c) && (c <=? 90)) || ((97 <=? c) && (c <=? 122)).

Definition isNumeric (c : Z) : bool := (48 <=? c) && (c <=? 57).

Definition isSymbolChar (c : Z) : bool :=
  (c =? CharCode.Underscore) || isAlpha c || isNumeric c.

Definition isWhitespace (c : Z) : bool :=
  (c =? 32) || (c =? 9) || (c =? 13) || (c =? 10).

Definition isOpcodeName (s : JsString) : bool :=
  existsb (jsStringEq s)
    (map js [ "lda"; "sta"; "ldx"; "stx"; "jmp"; "jsr"; "rts"; "nop" ]%string).

Definition helpers : Helpers :=
  Build_Helpers isAlpha isSymbolChar isWhitespace isOpcodeName
                eq_refl eq_refl eq_refl eq_refl.
End SpecHelpers.

(* ------------------------------------------------------------------ *)
(** ** Results of code that may throw *)
(* ------------------------------------------------------------------ *)

Inductive outcome (A : Type) : Type :=
| Returned (a : A)   (** normal completion *)
| Thrown             (** a [TypeError] (property read on [undefined]) *)
| OutOfFuel.         (** the loop bound of the model was too small *)

Arguments Returned {A} a.
Arguments Thrown {A}.
Arguments OutOfFuel {A}.

Definition bind {A B : Type} (m : outcome A) (k : A -> outcome B) : outcome B :=
  match m with
  | Returned a => k a
  | Thrown => Thrown
  | OutOfFuel => OutOfFuel
  end.

Notation "x <- m ;; k" := (bind m (fun x => k))
  (at level 61, m at next level, right associativity).


(* ------------------------------------------------------------------ *)
(** ** Parser iterator (the cursor) *)
(* ------------------------------------------------------------------ *)

Module ParserIterator.
Record t := mk { src : JsString; len : Z; ofs : Z; row : Z; col : Z }.

(** [new ParserIterator(src)]: offset, row and column default to [0]. *)
Definition new (s : JsString) : t := mk s (jsLength s) 0 0 0.

Definition eof (it : t) : bool := len it <=? ofs it.

(** [peek()]: the sentinel [0] at end of input. *)
Definition peek (it : t) : option Z :=
  if eof it then Some 0 else charCodeAt (src it) (ofs it).

Definition next (it : t) : t :=
  mk (src it) (len it) (ofs it + 1) (row it) (col it + 1).

Definition nextline (it : t) : t :=
  mk (src it) (len it) (ofs it + 1) (row it + 1) 0.
End ParserIterator.

(* ------------------------------------------------------------------ *)
(** ** ACME parser *)
(* ------------------------------------------------------------------ *)

Module AcmeParser.
Import ParserIterator.

(** The loops [while (it.ofs < len && cond(src.charCodeAt(it.ofs)))
    { range.inc(); it.next(); }] of [parse].  [fuel] bounds the number of
    turns; [advanceWhile] below passes [len - it.ofs], which the loop cannot
    exceed. *)
Fixpoint advanceLoop (cond : option Z -> bool) (s : JsString) (n : Z)
    (fuel : nat) (it : ParserIterator.t) (range : Range.t)
    : ParserIterator.t * Range.t :=
  match fuel with
  | O => (it, range)
  | S fuel' =>
      if (ofs it <? n) && cond (charCodeAt s (ofs it))
      then advanceLoop cond s n fuel' (next it) (Range.inc range)
      else (it, range)
  end.

Definition advanceWhile (cond : option Z -> bool) (s : JsString) (n : Z)
    (it : ParserIterator.t) (range : Range.t) : ParserIterator.t * Range.t :=
  advanceLoop cond s n (Z.to_nat (n - ofs it)) it range.

(** [c != CharCode.CarriageReturn && c != CharCode.LineFeed] *)
Definition notLineEnd (c : option Z) : bool :=
  negb (codeEq c CharCode.CarriageReturn) && negb (codeEq c CharCode.LineFeed).

(** [c != quoteChar]; [quoteChar] is the result of [peek]. *)
Definition notQuote (quoteChar : option Z) (c : option Z) : bool :=
  match quoteChar with
  | Some q => negb (codeEq c q)
  | None => true
  end.

(** The state of [parse] between two turns of its main loop. *)
Record state := mkState {
  it : ParserIterator.t;
  tokensPerLineOfs : Z;
  tokensPerLineCount : Z;
  ast : AbstractSyntaxTree.t
}.

Definition isLineEndType (ty : TokenType.t) : bool :=
  TokenType.eqb ty TokenType.LineBreak || TokenType.eqb ty TokenType.Comment.

Section WithHelpers.
Context {helpers : Helpers}.

(** [token.isOpcode()] *)
Definition isOpcode (tk : Token.t) : bool := isOpcodeName (Token.text tk).

(** The recognition part of one turn of the main loop (the [if] chain on
    [c] and [c2]): the cursor after it and the tokens pushed to the local
    array [tokens]. *)
Definition recognize (s : JsString) (n : Z) (it : ParserIterator.t)
    (tokensPerLineCount : Z) : ParserIterator.t * list Token.t :=
  let c := peek it in
  let c2 := if ofs it + 1 <? n then charCodeAt s (ofs it + 1) else Some 0 in
  if codeEq c CharCode.CarriageReturn || codeEq c CharCode.LineFeed then
    let range := Range.new (ofs it) (row it) (col it) in
    let c2 := if ofs it + 1 <? n then charCodeAt s (ofs it + 1) else Some 0 in
    let '(it, range) :=
      if codeEq c CharCode.CarriageReturn && codeEq c2 CharCode.LineFeed
      then (next it, Range.inc range)
      else (it, range) in
    let it := nextline it in
    (it, [Token.new TokenType.LineBreak s range])
  else if codeEq c CharCode.Semicolon then
    let range := Range.new (ofs it) (row it) (col it) in
    let '(it, range) := advanceWhile notLineEnd s n it range in
    (it, [Token.new TokenType.Comment s range])
  else if codeEq c CharCode.Plus && codeEq c2 CharCode.Plus then
    (next (next it), [])
  else if codeEq c CharCode.Period || codeEq c CharCode.Underscore
          || onCode isAlpha c
          || (codeEq c CharCode.Plus && onCode isSymbolChar c2) then
    let '(it, tokens, isReference) :=
      if codeEq c CharCode.Plus && onCode isSymbolChar c2 then
        if tokensPerLineCount =? 0 then
          let prefixRange := Range.new (ofs it) (row it) (col it) in
          let prefixRange := Range.inc prefixRange in
          let it := next it in
          (it, [Token.new TokenType.Reference s prefixRange], true)
        else (next it, [], false)
      else (it, [], false) in
    let range := Range.new (ofs it) (row it) (col it) in
    let '(it, range) :=
      if negb isReference then (next it, Range.inc range) else (it, range) in
    let '(it, range) := advanceWhile (onCode isSymbolChar) s n it range in
    (it, tokens ++ [Token.new TokenType.Identifier s range])
  else if codeEq c CharCode.Exclamation then
    let range := Range.new (ofs it) (row it) (col it) in
    let '(it, range) := (next it, Range.inc range) in
    let '(it, range) := advanceWhile (onCode isSymbolChar) s n it range in
    (it, [Token.new TokenType.Macro s range])
  else if codeEq c CharCode.SingleQuote || codeEq c CharCode.DoubleQuote then
    let quoteChar := c in
    let it := next it in
    let range := Range.new (ofs it) (row it) (col it) in
    let '(it, range) := advanceWhile (notQuote quoteChar) s n it range in
    let it := if ofs it <? n then next it else it in
    (it, [Token.new TokenType.String s range])
  else
    (next it, []).

(** [lexer(tokenOffset, tokenCount)]: the statement classifier, acting on
    the syntax tree.  An early [return null] leaves the tree as it is; a
    property read on [undefined] throws. *)
Definition lexer (ast : AbstractSyntaxTree.t) (tokenOffset tokenCount : Z)
    : outcome AbstractSyntaxTree.t :=
  if tokenCount <? 1 then Returned ast
  else
    let ofs := tokenOffset in
    let count := tokenCount in
    let tokens := AbstractSyntaxTree.tokens ast in
    if jsLength tokens <? ofs + count then Returned ast
    else
      match AbstractSyntaxTree.tokenAt tokens ofs with
      | None => Thrown
      | Some token =>
          let tokenType := Token.type token in
          statement <-
            (if TokenType.eqb tokenType TokenType.Identifier then
               if negb (isOpcode token)
               then Returned (Some (Statement.mk StatementType.Definition_ ofs 1))
               else Returned None
             else if TokenType.eqb tokenType TokenType.Comment then
               Returned (Some (Statement.mk StatementType.Comment ofs 1))
             else if 1 <? count then
               let token2 := AbstractSyntaxTree.tokenAt tokens (ofs + 1) in
               let macroCommand := Token.text token in
               if TokenType.eqb tokenType TokenType.Macro
                  && (jsStringEq macroCommand (js "!macro")
                      || jsStringEq macroCommand (js "!set")
                      || jsStringEq macroCommand (js "!addr"))
               then
                 match token2 with
                 | None => Thrown
                 | Some token2 =>
                     if TokenType.eqb (Token.type token2) TokenType.Identifier
                     then
                       if negb (isOpcode token2)
                       then Returned (Some (Statement.mk
                                              StatementType.Definition_ (ofs + 1) 1))
                       else Returned None
                     else Returned None
                 end
               else Returned None
             else Returned None) ;;
          match statement with
          | Some statement =>
              let ast := AbstractSyntaxTree.addStatement ast statement in
              if StatementType.eqb (Statement.type statement)
                                   StatementType.Definition_
              then Returned (AbstractSyntaxTree.addDefinition ast statement)
              else Returned ast
          | None => Returned ast
          end
      end.

(** Body of [for (const token of tokens)]: the per-line bookkeeping for one
    emitted token. *)
Definition processToken (st : state) (token : Token.t) : outcome state :=
  let a := AbstractSyntaxTree.addToken (ast st) token in
  let a := if tokensPerLineCount st =? 0
           then AbstractSyntaxTree.setFirstFlagOfLast a else a in
  if isLineEndType (Token.type token) then
    if 0 <? tokensPerLineCount st then
      a <- lexer a (tokensPerLineOfs st) (tokensPerLineCount st) ;;
      Returned (mkState (it st) (-1) 0 a)
    else Returned (mkState (it st) (tokensPerLineOfs st) (tokensPerLineCount st) a)
  else
    let lineOfs :=
      if tokensPerLineOfs st =? -1
      then jsLength (AbstractSyntaxTree.tokens a) - 1
      else tokensPerLineOfs st in
    Returned (mkState (it st) lineOfs (tokensPerLineCount st + 1) a).

Fixpoint processTokens (st : state) (tokens : list Token.t) : outcome state :=
  match tokens with
  | [] => Returned st
  | token :: rest => st <- processToken st token ;; processTokens st rest
  end.

(** One turn of [while (!it.eof())].  The guard [tokens.length > 0] around
    the [for] loop is left out: the loop does nothing on an empty array. *)
Definition iteration (s : JsString) (n : Z) (st : state) : outcome state :=
  let '(it', tokens) := recognize s n (it st) (tokensPerLineCount st) in
  processTokens (mkState it' (tokensPerLineOfs st) (tokensPerLineCount st) (ast st))
                tokens.

(** [while (!it.eof()) { ... }], at most [fuel] turns. *)
Fixpoint mainLoop (s : JsString) (n : Z) (fuel : nat) (st : state)
    : outcome state :=
  if eof (it st) then Returned st
  else
    match fuel with
    | O => OutOfFuel
    | S fuel' => st <- iteration s n st ;; mainLoop s n fuel' st
    end.

(** Modelled from the spec: [super.parse(src, filename)] of [ParserBase]
    ([language/language_base]) replaces the syntax tree by a fresh, empty
    one. *)
Definition initialState (s : JsString) : state :=
  mkState (ParserIterator.new s) (-1) 0 AbstractSyntaxTree.empty.

(** The state when the main loop of [parse(src)] is left.  No turn of the
    loop leaves the cursor where it was, so [src.length] turns are enough
    (see [scan_returns]). *)
Definition scan (s : JsString) : outcome state :=
  mainLoop s (jsLength s) (List.length s) (initialState s).

(** [parse(src, filename)]: the syntax tree it leaves in [this._ast]. *)
Definition parse (s : JsString) : outcome AbstractSyntaxTree.t :=
  st <- scan s ;;
  if 0 <? tokensPerLineCount st
  then lexer (ast st) (tokensPerLineOfs st) (tokensPerLineCount st)
  else Returned (ast st).

(** Leftward loop of [getTokenAtSourcePos]; [fuel] bounds the number of
    turns, and [startPos] turns are never exceeded. *)
Fixpoint expandLeft (greedyParsing : bool) (source : JsString) (fuel : nat)
    (startPos : Z) : Z :=
  match fuel with
  | O => startPos
  | S fuel' =>
      if 0 <? startPos then
        let c := charCodeAt source (startPos - 1) in
        if (if greedyParsing
            then onCode isWhitespace c
            else negb (codeEq c CharCode.Period) && negb (onCode isSymbolChar c))
        then startPos
        else
          let startPos := startPos - 1 in
          if looseEqNumStr c (js ".") then startPos
          else expandLeft greedyParsing source fuel' startPos
      else startPos
  end.

(** Rightward loop of [getTokenAtSourcePos]. *)
Fixpoint expandRight (source : JsString) (fuel : nat) (endPos : Z) : Z :=
  match fuel with
  | O => endPos
  | S fuel' =>
      if endPos <? jsLength source then
        let c := charCodeAt source endPos in
        if negb (onCode isSymbolChar c) then endPos
        else expandRight source fuel' (endPos + 1)
      else endPos
  end.

(** [getTokenAtSourcePos(source, offset, leftOnly, greedyParsing)];
    [None] is [null]. *)
Definition getTokenAtSourcePos (source : JsString) (offset : Z)
    (leftOnly greedyParsing : bool) : option JsString :=
  let startPos := expandLeft greedyParsing source (Z.to_nat offset) offset in
  let endPos := offset + 1 in
  let endPos :=
    if negb leftOnly
    then expandRight source (Z.to_nat (jsLength source - endPos)) endPos
    else endPos in
  let token := trim (substring source startPos endPos) in
  if jsLength token <? 1 then None else Some token.

End WithHelpers.
End AcmeParser.

(* ------------------------------------------------------------------ *)
(** ** Predicates used to state the properties *)
(* ------------------------------------------------------------------ *)

Definition tokStart (tk : Token.t) : Z := Range.offset (Token.range tk).
Definition tokStop (tk : Token.t) : Z := Range.stop (Token.range tk).

(** The spans of [toks] lie one after the other between [lo] and [hi]:
    each starts at or after the end of the one before it. *)
Fixpoint chained (lo : Z) (toks : list Token.t) (hi : Z) : Prop :=
  match toks with
  | [] => lo <= hi
  | tk :: rest =>
      lo <= tokStart tk /\ tokStart tk <= tokStop tk /\ chained (tokStop tk) rest hi
  end.

(** Offset [p] lies under the span of [tk]. *)
Definition inSpan (p : Z) (tk : Token.t) : bool :=
  (tokStart tk <=? p) && (p <? tokStop tk).

(** Number of tokens of [toks] whose span holds offset [p]. *)
Definition coverCount (p : Z) (toks : list Token.t) : nat :=
  List.length (filter (inSpan p) toks).

(** The cursor walks over [s] and is inside it. *)
Definition wfCursor (s : JsString) (it : ParserIterator.t) : Prop :=
  ParserIterator.src it = s /\ ParserIterator.len it = jsLength s /\
  0 <= ParserIterator.ofs it <= jsLength s.

(** A logical line is open after [toks]: the stream is not empty and its
    last token does not terminate a line. *)
Definition lineOpen (toks : list Token.t) : bool :=
  match rev toks with
  | [] => false
  | tk :: _ => negb (AcmeParser.isLineEndType (Token.type tk))
  end.

(** The per-line counters agree with the token stream: with no token
    accumulated the start index is the sentinel; otherwise the accumulated
    tokens are the last [count] tokens of the stream and none of them
    terminates a line. *)
Definition lineOk (lineOfs count : Z) (toks : list Token.t) : Prop :=
  0 <= count /\
  lineOpen toks = (0 <? count) /\
  (count = 0 -> lineOfs = -1) /\
  (0 < count ->
     0 <= lineOfs /\ lineOfs + count = jsLength toks /\
     Forall (fun tk => AcmeParser.isLineEndType (Token.type tk) = false)
            (skipn (Z.to_nat lineOfs) toks)).

(** Every token carries the first-on-line flag exactly when no line is
    open after the tokens before it. *)
Definition firstFlagsOk (toks : list Token.t) : Prop :=
  forall pre tk post,
    toks = pre ++ tk :: post -> Token.first tk = negb (lineOpen pre).

(** What holds of the syntax tree and the per-line counters once the
    tokens up to offset [hi] are in the stream: the spans are chained, the
    counters and flags are right, and every statement is a definition that
    is also among the definitions. *)
Definition streamOk (hi lineOfs count : Z) (a : AbstractSyntaxTree.t) : Prop :=
  chained 0 (AbstractSyntaxTree.tokens a) hi /\
  lineOk lineOfs count (AbstractSyntaxTree.tokens a) /\
  firstFlagsOk (AbstractSyntaxTree.tokens a) /\
  AbstractSyntaxTree.definitions a = AbstractSyntaxTree.statements a /\
  Forall (fun x => Statement.type x = StatementType.Definition_)
         (AbstractSyntaxTree.statements a).

(** What holds between two turns of the main loop of [parse(s)]. *)
Definition Inv (s : JsString) (st : AcmeParser.state) : Prop :=
  wfCursor s (AcmeParser.it st) /\
  streamOk (ParserIterator.ofs (AcmeParser.it st))
           (AcmeParser.tokensPerLineOfs st) (AcmeParser.tokensPerLineCount st)
           (AcmeParser.ast st).

(** Number of leading code units of [l] that satisfy [p]. *)
Fixpoint runLength (p : Z -> bool) (l : JsString) : Z :=
  match l with
  | c :: l' => if p c then 1 + runLength p l' else 0
  | [] => 0
  end.

(** The two shapes of a line that defines a name (the classifier's rules
    for a Definition statement). *)
Definition definesByLabel {helpers : Helpers} (first : Token.t) : Prop :=
  Token.type first = TokenType.Identifier /\ AcmeParser.isOpcode first = false.

Definition definesByDirective {helpers : Helpers}
    (toks : list Token.t) (ofs count : Z) (first : Token.t) : Prop :=
  1 < count /\
  Token.type first = TokenType.Macro /\
  (Token.text first = js "!macro" \/ Token.text first = js "!set"
   \/ Token.text first = js "!addr") /\
  exists second,
    AbstractSyntaxTree.tokenAt toks (ofs + 1) = Some second /\
    Token.type second = TokenType.Identifier /\
    AcmeParser.isOpcode second = false.

Definition isDefinition (x : Statement.t) : bool :=
  StatementType.eqb (Statement.type x) StatementType.Definition_.

(** Number of LineBreak tokens among [toks]. *)
Definition lineBreaksIn (toks : list Token.t) : Z :=
  jsLength (filter (fun tk => TokenType.eqb (Token.type tk) TokenType.LineBreak)
                   toks).

(** The character of the buffer [s] that a token of each kind starts at:
    a line break at CR or LF, a comment at [;], a macro at [!], a reference
    at [+], an identifier at a period, an underscore, an alphabetic or a
    symbol-constituent character; a string starts right behind a quote. *)
Definition startsAsItsKind {helpers : Helpers} (s : JsString) (tk : Token.t)
    : Prop :=
  match Token.type tk with
  | TokenType.LineBreak =>
      charCodeAt s (tokStart tk) = Some CharCode.CarriageReturn \/
      charCodeAt s (tokStart tk) = Some CharCode.LineFeed
  | TokenType.Comment => charCodeAt s (tokStart tk) = Some CharCode.Semicolon
  | TokenType.Macro => charCodeAt s (tokStart tk) = Some CharCode.Exclamation
  | TokenType.Reference => charCodeAt s (tokStart tk) = Some CharCode.Plus
  | TokenType.String =>
      charCodeAt s (tokStart tk - 1) = Some CharCode.SingleQuote \/
      charCodeAt s (tokStart tk - 1) = Some CharCode.DoubleQuote
  | TokenType.Identifier =>
      exists c, charCodeAt s (tokStart tk) = Some c /\
                (c = CharCode.Period \/ c = CharCode.Underscore \/
                 isAlpha c = true \/ isSymbolChar c = true)
  end.

(** What lies under the span of a token of the buffer [s], and what lies
    right behind it: an identifier or macro is not empty, goes on with
    symbol-constituent characters only and is not followed by one; a comment
    holds no CR or LF and ends at one or at the end of the buffer; a string
    holds no quote of the kind that opened it and ends at one or at the end
    of the buffer. *)
Definition spanContent {helpers : Helpers} (s : JsString) (tk : Token.t)
    : Prop :=
  match Token.type tk with
  | TokenType.Identifier | TokenType.Macro =>
      tokStart tk < tokStop tk /\
      (forall p, tokStart tk < p < tokStop tk ->
                 onCode isSymbolChar (charCodeAt s p) = true) /\
      (tokStop tk < jsLength s ->
       onCode isSymbolChar (charCodeAt s (tokStop tk)) = false)
  | TokenType.Comment =>
      (forall p, tokStart tk <= p < tokStop tk ->
                 AcmeParser.notLineEnd (charCodeAt s p) = true) /\
      (tokStop tk < jsLength s ->
       AcmeParser.notLineEnd (charCodeAt s (tokStop tk)) = false)
  | TokenType.String =>
      (forall p, tokStart tk <= p < tokStop tk ->
                 charCodeAt s p <> charCodeAt s (tokStart tk - 1)) /\
      (tokStop tk < jsLength s ->
       charCodeAt s (tokStop tk) = charCodeAt s (tokStart tk - 1))
  | TokenType.LineBreak | TokenType.Reference => True
  end.

(** The test that lets the leftward loop of [getTokenAtSourcePos] go on
    over a character: not white space in greedy mode; a period or a
    symbol-constituent character otherwise. *)
Definition keepsExpandingLeft {helpers : Helpers} (greedyParsing : bool)
    (c : option Z) : bool :=
  if greedyParsing
  then negb (onCode isWhitespace c)
  else codeEq c CharCode.Period || onCode isSymbolChar c.

(** The row of every token of [toks] is the number of LineBreak tokens
    before it. *)
Definition rowsCountLineBreaks (toks : list Token.t) : Prop :=
  forall pre tk post,
    toks = pre ++ tk :: post ->
    Range.row (Token.range tk) = lineBreaksIn pre.

(** Every Reference token of [toks] is flagged first on its line, spans
    one character and is directly followed by an Identifier token that
    starts where it ends. *)
Definition referenceLeadsIdentifier (toks : list Token.t) : Prop :=
  forall pre tk post,
    toks = pre ++ tk :: post ->
    Token.type tk = TokenType.Reference ->
    Token.first tk = true /\ Range.length (Token.range tk) = 1 /\
    exists id post',
      post = id :: post' /\ Token.type id = TokenType.Identifier /\
      tokStart id = tokStop tk.

(** Statement [x] is a Definition of one token, and that token of [toks]
    is an Identifier that is no opcode name. *)
Definition pointsToDefinedName {helpers : Helpers} (toks : list Token.t)
    (x : Statement.t) : Prop :=
  Statement.type x = StatementType.Definition_ /\
  Statement.tokenCount x = 1 /\
  exists tk,
    AbstractSyntaxTree.tokenAt toks (Statement.tokenOffset x) = Some tk /\
    Token.type tk = TokenType.Identifier /\
    AcmeParser.isOpcode tk = false.

(** The token offsets of the statements [l] increase strictly. *)
Definition increasingOffsets (l : list Statement.t) : Prop :=
  forall pre x post,
    l = pre ++ x :: post ->
    Forall (fun y => Statement.tokenOffset y < Statement.tokenOffset x) pre.

(** [t'] is the token [t], possibly after [setFirstFlag]. *)
Definition flaggedCopy (t t' : Token.t) : Prop :=
  t' = t \/ t' = Token.setFirstFlag t.

(** The first token index a later logical line can use: the start of the
    open line, or the length of the stream when no line is open. *)
Definition lineFloor (st : AcmeParser.state) : Z :=
  if 0 <? AcmeParser.tokensPerLineCount st
  then AcmeParser.tokensPerLineOfs st
  else jsLength (AbstractSyntaxTree.tokens (AcmeParser.ast st)).

(** The offset at which the current line starts after the tokens [toks]:
    right behind the characters the last LineBreak token stepped over (its
    span and the one character [nextline] consumes), or [0] when there is
    no LineBreak token. *)
Definition lineStartAfter (toks : list Token.t) : Z :=
  fold_left (fun start tk =>
               if TokenType.eqb (Token.type tk) TokenType.LineBreak
               then tokStart tk + Range.length (Token.range tk) + 1
               else start)
            toks 0.

(** The column of every token of [toks] is its offset from the start of
    its line. *)
Definition colsFromLineStart (toks : list Token.t) : Prop :=
  forall pre tk post,
    toks = pre ++ tk :: post ->
    Range.col (Token.range tk) = tokStart tk - lineStartAfter pre.

(* ================================================================== *)
(** * Properties *)
(* ================================================================== *)

(** ** Strings *)

Lemma jsStringEq_iff (a b : JsString) : jsStringEq a b = true <-> a = b.
Proof.
  revert b; induction a as [|x a IH]; intros [|y b]; simpl;
    try (split; [discriminate | discriminate]); [split; reflexivity|].
  rewrite andb_true_iff, Z.eqb_eq, IH.
  split; [intros [-> ->]; reflexivity | intros E; injection E; auto].
Qed.

Lemma charCodeAt_Some (s : JsString) (i c : Z) :
  charCodeAt s i = Some c -> 0 <= i < jsLength s.
Proof.
  unfold charCodeAt, jsLength.
  destruct (Z.ltb_spec i 0); [discriminate|].
  intros E. assert (Hn : nth_error s (Z.to_nat i) <> None) by congruence.
  apply nth_error_Some in Hn. lia.
Qed.

Lemma charCodeAt_inside (s : JsString) (i : Z) :
  0 <= i < jsLength s -> exists c, charCodeAt s i = Some c.
Proof.
  unfold charCodeAt, jsLength. intros Hi.
  destruct (Z.ltb_spec i 0); [lia|].
  destruct (nth_error s (Z.to_nat i)) eqn:E; [eauto|].
  apply nth_error_None in E. lia.
Qed.

Lemma looseEq_period_never (c : option Z) : looseEqNumStr c (js ".") = false.
Proof. destruct c; reflexivity. Qed.

Lemma jsLength_cons_ltb {A : Type} (x : A) (l : list A) :
  (jsLength (x :: l) <? 1) = false.
Proof. apply Z.ltb_ge. unfold jsLength. simpl List.length. lia. Qed.

(** ** Directive search *)

Lemma collect_filter (query : JsString) (rest items : list JsString) :
  AcmeGrammar.collect query rest items
  = items ++ filter (fun candidate => startsWith candidate query)
                    (map (fun name => js "!" ++ name) rest).
Proof.
  revert items; induction rest as [|item rest IH]; intros items;
    cbn [AcmeGrammar.collect map filter].
  - now rewrite app_nil_r.
  - destruct (startsWith (js "!" ++ item) query); rewrite IH.
    + rewrite <- app_assoc. reflexivity.
    + reflexivity.
Qed.

(** C7.  [fuzzySearch] answers "no match" for the empty query and for a
    query whose first character is not [!]; for a query that starts with
    [!] it answers the directive names, each with [!] prepended, that start
    with the query, in declaration order, or "no match" when there is none;
    the answer for ["!al"] holds ["!align"]. *)
Theorem fuzzySearch_prefix_matches :
  (forall query,
     AcmeGrammar.fuzzySearch query =
       match query with
       | [] => None
       | c :: _ =>
           if c =? CharCode.Exclamation
           then match AcmeGrammar.matchingDirectives query with
                | [] => None
                | found => Some found
                end
           else None
       end)
  /\ AcmeGrammar.fuzzySearch (js "") = None
  /\ AcmeGrammar.fuzzySearch (js "al") = None
  /\ AcmeGrammar.fuzzySearch (js "!al") = Some [js "!align"; js "!al"]
  /\ (exists found, AcmeGrammar.fuzzySearch (js "!al") = Some found
                    /\ In (js "!align") found).
Proof.
  split; [| repeat split; try reflexivity;
            exists [js "!align"; js "!al"]; split; [reflexivity | now left]].
  intros [|c query]; [reflexivity|].
  unfold AcmeGrammar.fuzzySearch, AcmeGrammar.matchingDirectives.
  rewrite jsLength_cons_ltb.
  change (codeEq (charCodeAt (c :: query) 0) CharCode.Exclamation)
    with (c =? CharCode.Exclamation).
  destruct (c =? CharCode.Exclamation); [|reflexivity].
  rewrite collect_filter, app_nil_l.
  destruct (filter _ _) as [|found more]; [reflexivity|].
  now rewrite jsLength_cons_ltb.
Qed.

(** ** The cursor and the inner loops of the scanner *)

Section Scanner.
Context {helpers : Helpers}.
Import ParserIterator AcmeParser.

Lemma wfCursor_next (s : JsString) (it : ParserIterator.t) :
  wfCursor s it -> ofs it < jsLength s -> wfCursor s (next it).
Proof. unfold wfCursor; simpl; intuition lia. Qed.

Lemma wfCursor_nextline (s : JsString) (it : ParserIterator.t) :
  wfCursor s it -> ofs it < jsLength s -> wfCursor s (nextline it).
Proof. unfold wfCursor; simpl; intuition lia. Qed.

Lemma peek_inside (s : JsString) (it : ParserIterator.t) :
  wfCursor s it -> eof it = false ->
  ofs it < jsLength s /\ exists c, peek it = Some c /\ charCodeAt s (ofs it) = Some c.
Proof.
  intros (Hs & Hl & Ho) He. unfold peek. rewrite He.
  unfold eof in He. apply Z.leb_gt in He. rewrite Hl in He.
  split; [exact He|].
  destruct (charCodeAt_inside s (ofs it)) as [c Hc]; [lia|].
  exists c. now rewrite Hs.
Qed.

(** The inner loops stop inside the buffer, at the first character that
    fails the test, and the span grows by what the cursor moved. *)
Lemma advanceLoop_spec (cond : option Z -> bool) (s : JsString) (fuel : nat) :
  forall it range it' range',
    wfCursor s it ->
    jsLength s - ofs it <= Z.of_nat fuel ->
    advanceLoop cond s (jsLength s) fuel it range = (it', range') ->
    wfCursor s it' /\ ofs it <= ofs it' /\
    Range.offset range' = Range.offset range /\
    Range.length range' = Range.length range + (ofs it' - ofs it) /\
    (ofs it' < jsLength s -> cond (charCodeAt s (ofs it')) = false) /\
    (forall p, ofs it <= p < ofs it' -> cond (charCodeAt s p) = true).
Proof.
  induction fuel as [|fuel IH]; intros it range it' range' Hwf Hfuel; simpl.
  - intros E; injection E as <- <-.
    destruct Hwf as (Hs & Hl & Ho).
    unfold wfCursor. intuition lia.
  - destruct (Z.ltb_spec (ofs it) (jsLength s)) as [Hlt|Hge]; simpl.
    + destruct (cond (charCodeAt s (ofs it))) eqn:Hc.
      * intros E. apply IH in E; [| now apply wfCursor_next | simpl; lia].
        destruct E as (Hwf' & Hle & Hoff & Hlen & Hstop & Hall).
        simpl in *.
        split; [exact Hwf'|]. split; [lia|]. split; [exact Hoff|].
        split; [lia|]. split; [exact Hstop|].
        intros p Hp. destruct (Z.eq_dec p (ofs it)) as [->|Hne];
          [assumption | apply Hall; lia].
      * intros E; injection E as <- <-.
        split; [exact Hwf|]. split; [lia|]. split; [reflexivity|].
        split; [lia|]. split; [now intros _ | intros p Hp; lia].
    + intros E; injection E as <- <-.
      split; [exact Hwf|]. split; [lia|]. split; [reflexivity|].
      split; [lia|]. split; [intros; lia | intros p Hp; lia].
Qed.

Lemma advanceWhile_spec (cond : option Z -> bool) (s : JsString) :
  forall it range it' range',
    wfCursor s it ->
    advanceWhile cond s (jsLength s) it range = (it', range') ->
    wfCursor s it' /\ ofs it <= ofs it' /\
    Range.offset range' = Range.offset range /\
    Range.length range' = Range.length range + (ofs it' - ofs it) /\
    (ofs it' < jsLength s -> cond (charCodeAt s (ofs it')) = false) /\
    (forall p, ofs it <= p < ofs it' -> cond (charCodeAt s p) = true).
Proof.
  intros it range it' range' Hwf E.
  apply (advanceLoop_spec cond s (Z.to_nat (jsLength s - ofs it)) it range it' range' Hwf);
    [lia | exact E].
Qed.


(** ** One recognition step *)

Lemma lookahead_inside (s : JsString) (it : ParserIterator.t) (k : Z) :
  k <> 0 ->
  codeEq (if ofs it + 1 <? jsLength s
          then charCodeAt s (ofs it + 1) else Some 0) k = true ->
  ofs it + 1 < jsLength s.
Proof.
  intros Hk. destruct (Z.ltb_spec (ofs it + 1) (jsLength s)); [auto|].
  unfold codeEq. intros E. apply Z.eqb_eq in E. congruence.
Qed.

Lemma lookahead_symbol (s : JsString) (it : ParserIterator.t) :
  onCode isSymbolChar (if ofs it + 1 <? jsLength s
                       then charCodeAt s (ofs it + 1) else Some 0) = true ->
  ofs it + 1 < jsLength s /\
  exists c2, charCodeAt s (ofs it + 1) = Some c2 /\ isSymbolChar c2 = true.
Proof.
  destruct (Z.ltb_spec (ofs it + 1) (jsLength s)) as [Hlt|Hge].
  - intros E. split; [exact Hlt|].
    destruct (charCodeAt s (ofs it + 1)) as [c2|]; [eauto | discriminate].
  - simpl. rewrite isSymbolChar_sentinel. discriminate.
Qed.

Ltac norm_fields :=
  cbn [chained ParserIterator.ofs ParserIterator.row ParserIterator.col
       ParserIterator.src ParserIterator.len
       Range.offset Range.length Range.row Range.col
       Token.range Token.type Token.first Token.src] in *.

Ltac norm :=
  unfold Range.inc, Range.new, Token.new,
         ParserIterator.next, ParserIterator.nextline in *;
  norm_fields;
  unfold tokStart, tokStop, Range.stop in *;
  norm_fields.

Ltac span_arith := norm; try lia.

Lemma recognize_spec (s : JsString) (it it' : ParserIterator.t)
    (count : Z) (toks : list Token.t) :
  wfCursor s it -> eof it = false ->
  recognize s (jsLength s) it count = (it', toks) ->
  wfCursor s it' /\ ofs it < ofs it' /\ chained (ofs it) toks (ofs it') /\
  Forall (fun tk => Token.first tk = false) toks.
Proof.
  intros Hwf He.
  destruct (peek_inside s it Hwf He) as (Hlt & c & Hpeek & Hc).
  unfold recognize. rewrite Hpeek.
  set (c2 := if ofs it + 1 <? jsLength s
             then charCodeAt s (ofs it + 1) else Some 0).
  destruct (codeEq (Some c) CharCode.CarriageReturn
            || codeEq (Some c) CharCode.LineFeed) eqn:Hnl.
  { (* line break *)
    destruct (codeEq (Some c) CharCode.CarriageReturn
              && codeEq c2 CharCode.LineFeed) eqn:Hcrlf;
      intros E; injection E as <- <-.
    - apply andb_prop in Hcrlf. destruct Hcrlf as [_ Hlf].
      apply lookahead_inside in Hlf; [|discriminate].
      split; [apply wfCursor_nextline; [now apply wfCursor_next | simpl; lia]|].
      split; [simpl; lia|]. split; [span_arith | repeat constructor].
    - split; [now apply wfCursor_nextline|].
      split; [simpl; lia|]. split; [span_arith | repeat constructor]. }
  destruct (codeEq (Some c) CharCode.Semicolon) eqn:Hsemi.
  { (* comment *)
    destruct (advanceWhile notLineEnd s (jsLength s) it
                (Range.new (ofs it) (row it) (col it))) as [it1 r1] eqn:Hadv.
    intros E; injection E as <- <-.
    pose proof (advanceWhile_spec _ _ _ _ _ _ Hwf Hadv)
      as (Hwf1 & Hle & Hoff & Hlen & Hstop & Hall).
    assert (ofs it < ofs it1).
    { destruct (Z.eq_dec (ofs it1) (ofs it)) as [Heq|]; [|lia].
      rewrite Heq in Hstop. specialize (Hstop Hlt). rewrite Hc in Hstop.
      simpl in Hsemi, Hnl, Hstop. apply Z.eqb_eq in Hsemi. subst c.
      discriminate. }
    split; [exact Hwf1|]. split; [assumption|].
    split; [|repeat constructor].
    norm. rewrite Hoff, Hlen. lia. }
  destruct (codeEq (Some c) CharCode.Plus && codeEq c2 CharCode.Plus) eqn:Hpp.
  { (* ++ *)
    intros E; injection E as <- <-.
    apply andb_prop in Hpp. destruct Hpp as [_ Hp2].
    apply lookahead_inside in Hp2; [|discriminate].
    split; [apply wfCursor_next; [now apply wfCursor_next | simpl; lia]|].
    split; [simpl; lia|]. split; [simpl; lia | constructor]. }
  destruct (codeEq (Some c) CharCode.Period || codeEq (Some c) CharCode.Underscore
            || onCode isAlpha (Some c)
            || codeEq (Some c) CharCode.Plus && onCode isSymbolChar c2) eqn:Hid.
  { (* identifier *)
    destruct (codeEq (Some c) CharCode.Plus && onCode isSymbolChar c2) eqn:Hplus.
    - apply andb_prop in Hplus. destruct Hplus as [_ Hsym].
      apply lookahead_symbol in Hsym. destruct Hsym as (Hlt2 & z2 & Hz2 & Hz2s).
      destruct (count =? 0).
      + simpl negb. cbv iota beta.
        destruct (advanceWhile (onCode isSymbolChar) s (jsLength s) (next it)
                    (Range.new (ofs (next it)) (row (next it)) (col (next it))))
          as [it1 r1] eqn:Hadv.
        intros E; injection E as <- <-.
        pose proof (advanceWhile_spec _ _ _ _ _ _ (wfCursor_next _ _ Hwf Hlt) Hadv)
          as (Hwf1 & Hle & Hoff & Hlen & Hstop & Hall).
        norm.
        split; [exact Hwf1|]. split; [lia|].
        split; [|repeat constructor].
        norm. rewrite Hoff, Hlen. lia.
      + simpl negb. cbv iota beta.
        destruct (advanceWhile (onCode isSymbolChar) s (jsLength s)
                    (next (next it))
                    (Range.inc (Range.new (ofs (next it)) (row (next it))
                                          (col (next it)))))
          as [it1 r1] eqn:Hadv.
        intros E; injection E as <- <-.
        assert (Hwf2 : wfCursor s (next (next it)))
          by (apply wfCursor_next; [now apply wfCursor_next | simpl; lia]).
        pose proof (advanceWhile_spec _ _ _ _ _ _ Hwf2 Hadv)
          as (Hwf1 & Hle & Hoff & Hlen & Hstop & Hall).
        norm.
        split; [exact Hwf1|]. split; [lia|].
        split; [|repeat constructor].
        norm. rewrite Hoff, Hlen. lia.
    - simpl negb. cbv iota beta.
      destruct (advanceWhile (onCode isSymbolChar) s (jsLength s) (next it)
                  (Range.inc (Range.new (ofs it) (row it) (col it))))
        as [it1 r1] eqn:Hadv.
      intros E; injection E as <- <-.
      pose proof (advanceWhile_spec _ _ _ _ _ _ (wfCursor_next _ _ Hwf Hlt) Hadv)
        as (Hwf1 & Hle & Hoff & Hlen & Hstop & Hall).
      norm.
      split; [exact Hwf1|]. split; [lia|].
      split; [|repeat constructor].
      norm. rewrite Hoff, Hlen. lia. }
  destruct (codeEq (Some c) CharCode.Exclamation) eqn:Hbang.
  { (* macro *)
    destruct (advanceWhile (onCode isSymbolChar) s (jsLength s) (next it)
                (Range.inc (Range.new (ofs it) (row it) (col it))))
      as [it1 r1] eqn:Hadv.
    intros E; injection E as <- <-.
    pose proof (advanceWhile_spec _ _ _ _ _ _ (wfCursor_next _ _ Hwf Hlt) Hadv)
      as (Hwf1 & Hle & Hoff & Hlen & Hstop & Hall).
    norm.
    split; [exact Hwf1|]. split; [lia|].
    split; [|repeat constructor].
    norm. rewrite Hoff, Hlen. lia. }
  destruct (codeEq (Some c) CharCode.SingleQuote
            || codeEq (Some c) CharCode.DoubleQuote) eqn:Hq.
  { (* string *)
    destruct (advanceWhile (notQuote (Some c)) s (jsLength s) (next it)
                (Range.new (ofs (next it)) (row (next it)) (col (next it))))
      as [it1 r1] eqn:Hadv.
    pose proof (advanceWhile_spec _ _ _ _ _ _ (wfCursor_next _ _ Hwf Hlt) Hadv)
      as (Hwf1 & Hle & Hoff & Hlen & Hstop & Hall).
    norm.
    destruct (Z.ltb_spec (ofs it1) (jsLength s)) as [Hin|Hout];
      intros E; injection E as <- <-.
    - split; [now apply wfCursor_next|]. split; [simpl; lia|].
      split; [|repeat constructor].
      norm. rewrite Hoff, Hlen. lia.
    - split; [exact Hwf1|]. split; [lia|].
      split; [|repeat constructor].
      norm. rewrite Hoff, Hlen. lia. }
  (* anything else *)
  intros E; injection E as <- <-.
  split; [now apply wfCursor_next|]. split; [simpl; lia|].
  split; [simpl; lia | constructor].
Qed.

(** ** The statement classifier *)

Lemma tokenAt_inside (toks : list Token.t) (i : Z) :
  0 <= i < jsLength toks ->
  exists tk, AbstractSyntaxTree.tokenAt toks i = Some tk.
Proof.
  unfold AbstractSyntaxTree.tokenAt, jsLength. intros Hi.
  destruct (Z.ltb_spec i 0); [lia|].
  destruct (nth_error toks (Z.to_nat i)) eqn:E; [eauto|].
  apply nth_error_None in E. lia.
Qed.

Lemma TokenType_eqb_eq (a b : TokenType.t) :
  TokenType.eqb a b = true <-> a = b.
Proof. destruct a, b; simpl; split; congruence. Qed.

Lemma isMacroCommand_iff (text : JsString) :
  jsStringEq text (js "!macro") || jsStringEq text (js "!set")
    || jsStringEq text (js "!addr") = true
  <-> text = js "!macro" \/ text = js "!set" \/ text = js "!addr".
Proof.
  rewrite !orb_true_iff, !jsStringEq_iff. tauto.
Qed.

(** What [lexer] does on a token span that lies inside the stream: it
    appends the statements [news], and those of them that are definitions
    to the definitions. *)
Lemma lexer_cases (ast : AbstractSyntaxTree.t) (ofs count : Z) :
  0 <= ofs -> 1 <= count ->
  ofs + count <= jsLength (AbstractSyntaxTree.tokens ast) ->
  exists first news,
    AbstractSyntaxTree.tokenAt (AbstractSyntaxTree.tokens ast) ofs = Some first /\
    lexer ast ofs count =
      Returned (AbstractSyntaxTree.mk
                  (AbstractSyntaxTree.tokens ast)
                  (AbstractSyntaxTree.statements ast ++ news)
                  (AbstractSyntaxTree.definitions ast ++ filter isDefinition news)) /\
    ((definesByLabel first /\
      news = [Statement.mk StatementType.Definition_ ofs 1]) \/
     (Token.type first = TokenType.Comment /\
      news = [Statement.mk StatementType.Comment ofs 1]) \/
     (definesByDirective (AbstractSyntaxTree.tokens ast) ofs count first /\
      news = [Statement.mk StatementType.Definition_ (ofs + 1) 1]) \/
     (~ definesByLabel first /\ Token.type first <> TokenType.Comment /\
      ~ definesByDirective (AbstractSyntaxTree.tokens ast) ofs count first /\
      news = [])).
Proof.
  intros Hofs Hcount Hin.
  destruct (tokenAt_inside (AbstractSyntaxTree.tokens ast) ofs) as [first Hfirst];
    [lia|].
  exists first.
  unfold lexer.
  replace (count <? 1) with false by (symmetry; apply Z.ltb_ge; lia).
  replace (jsLength (AbstractSyntaxTree.tokens ast) <? ofs + count) with false
    by (symmetry; apply Z.ltb_ge; lia).
  rewrite Hfirst.
  assert (Hnone : forall a : AbstractSyntaxTree.t,
            a = AbstractSyntaxTree.mk (AbstractSyntaxTree.tokens a)
                  (AbstractSyntaxTree.statements a ++ [])
                  (AbstractSyntaxTree.definitions a ++ filter isDefinition []))
    by (intros [t1 t2 t3]; simpl; now rewrite !app_nil_r).
  destruct (TokenType.eqb (Token.type first) TokenType.Identifier) eqn:Hident.
  { apply TokenType_eqb_eq in Hident.
    destruct (isOpcode first) eqn:Hop; simpl.
    - exists []. split; [reflexivity|]. split; [f_equal; apply Hnone|].
      right; right; right. unfold definesByLabel, definesByDirective.
      repeat split; try congruence.
      + intros [_ E]; congruence.
      + intros (_ & E & _); congruence.
    - exists [Statement.mk StatementType.Definition_ ofs 1].
      split; [reflexivity|]. split; [reflexivity|].
      left. now repeat split. }
  assert (Hnl : ~ definesByLabel first).
  { intros [E _]. apply TokenType_eqb_eq in E. congruence. }
  destruct (TokenType.eqb (Token.type first) TokenType.Comment) eqn:Hcomment.
  { apply TokenType_eqb_eq in Hcomment.
    exists [Statement.mk StatementType.Comment ofs 1].
    split; [reflexivity|].
    split; [simpl; unfold AbstractSyntaxTree.addStatement; simpl;
            now rewrite app_nil_r|].
    right; left. now split. }
  assert (Hnc : Token.type first <> TokenType.Comment).
  { intros E. apply TokenType_eqb_eq in E. congruence. }
  destruct (Z.ltb_spec 1 count) as [Hmany|Hone].
  2:{ exists []. split; [reflexivity|]. split; [simpl; f_equal; apply Hnone|].
      right; right; right. repeat split; try assumption.
      intros (E & _); lia. }
  destruct (TokenType.eqb (Token.type first) TokenType.Macro
            && (jsStringEq (Token.text first) (js "!macro")
                || jsStringEq (Token.text first) (js "!set")
                || jsStringEq (Token.text first) (js "!addr"))) eqn:Hmacro.
  2:{ exists []. split; [reflexivity|]. split; [simpl; f_equal; apply Hnone|].
      right; right; right. repeat split; try assumption.
      intros (_ & Ety & Etext & _).
      apply TokenType_eqb_eq in Ety. apply isMacroCommand_iff in Etext.
      rewrite Ety, Etext in Hmacro. discriminate. }
  apply andb_prop in Hmacro. destruct Hmacro as [Ety Etext].
  apply TokenType_eqb_eq in Ety. apply isMacroCommand_iff in Etext.
  destruct (tokenAt_inside (AbstractSyntaxTree.tokens ast) (ofs + 1))
    as [second Hsecond]; [lia|].
  rewrite Hsecond.
  destruct (TokenType.eqb (Token.type second) TokenType.Identifier) eqn:Hident2.
  2:{ exists []. split; [reflexivity|]. split; [simpl; f_equal; apply Hnone|].
      right; right; right. repeat split; try assumption.
      intros (_ & _ & _ & second' & E1 & E2 & _).
      rewrite Hsecond in E1. injection E1 as <-.
      apply TokenType_eqb_eq in E2. congruence. }
  apply TokenType_eqb_eq in Hident2.
  destruct (isOpcode second) eqn:Hop2; simpl.
  - exists []. split; [reflexivity|]. split; [f_equal; apply Hnone|].
    right; right; right. repeat split; try assumption.
    intros (_ & _ & _ & second' & E1 & _ & E3).
    rewrite Hsecond in E1. injection E1 as <-. congruence.
  - exists [Statement.mk StatementType.Definition_ (ofs + 1) 1].
    split; [reflexivity|]. split; [reflexivity|].
    right; right; left. split; [|reflexivity].
    repeat split; try assumption. exists second. now repeat split.
Qed.

(** ** Token streams *)

Lemma chained_weaken (toks : list Token.t) :
  forall lo hi hi', chained lo toks hi -> hi <= hi' -> chained lo toks hi'.
Proof.
  induction toks as [|tk toks IH]; simpl; intros lo hi hi' H Hle; [lia|].
  destruct H as (H1 & H2 & H3). eauto.
Qed.

Lemma chained_app (a b : list Token.t) :
  forall lo mid hi,
    chained lo a mid -> chained mid b hi -> chained lo (a ++ b) hi.
Proof.
  induction a as [|tk a IH]; simpl; intros lo mid hi Ha Hb.
  - destruct b as [|tk b]; simpl in *; [lia | intuition lia].
  - destruct Ha as (H1 & H2 & H3). eauto.
Qed.

Lemma chained_bounds (toks : list Token.t) :
  forall lo hi, chained lo toks hi ->
    lo <= hi /\ Forall (fun tk => lo <= tokStart tk /\ tokStart tk <= tokStop tk
                                  /\ tokStop tk <= hi) toks.
Proof.
  induction toks as [|tk toks IH]; simpl; intros lo hi H; [split; [lia|constructor]|].
  destruct H as (H1 & H2 & H3). apply IH in H3. destruct H3 as [H3 H4].
  split; [lia|]. constructor; [lia|].
  eapply Forall_impl; [|exact H4]. simpl. intros x Hx. lia.
Qed.

Lemma lineOpen_snoc (toks : list Token.t) (tk : Token.t) :
  lineOpen (toks ++ [tk]) = negb (isLineEndType (Token.type tk)).
Proof. unfold lineOpen. now rewrite rev_unit. Qed.

Lemma firstFlagsOk_snoc (toks : list Token.t) (tk : Token.t) :
  firstFlagsOk toks -> Token.first tk = negb (lineOpen toks) ->
  firstFlagsOk (toks ++ [tk]).
Proof.
  intros Hok Hfirst pre x post E.
  destruct post as [|y post] using rev_ind.
  - apply app_inj_tail in E. destruct E as [<- <-]. exact Hfirst.
  - clear IHpost. rewrite app_comm_cons, app_assoc in E.
    apply app_inj_tail in E. destruct E as [E _].
    now apply (Hok pre x post).
Qed.

Lemma setFirstFlagOfLast_addToken (a : AbstractSyntaxTree.t) (tk : Token.t) :
  AbstractSyntaxTree.setFirstFlagOfLast (AbstractSyntaxTree.addToken a tk)
  = AbstractSyntaxTree.addToken a (Token.setFirstFlag tk).
Proof.
  unfold AbstractSyntaxTree.setFirstFlagOfLast, AbstractSyntaxTree.addToken.
  simpl. rewrite rev_unit, rev_involutive. reflexivity.
Qed.

Lemma tokenAt_app_l (toks more : list Token.t) (i : Z) :
  i < jsLength toks ->
  AbstractSyntaxTree.tokenAt (toks ++ more) i = AbstractSyntaxTree.tokenAt toks i.
Proof.
  unfold AbstractSyntaxTree.tokenAt, jsLength. intros Hi.
  destruct (Z.ltb_spec i 0); [reflexivity|].
  apply nth_error_app1. lia.
Qed.

Lemma tokenAt_skipn (toks : list Token.t) (i : Z) (tk : Token.t) :
  AbstractSyntaxTree.tokenAt toks i = Some tk ->
  In tk (skipn (Z.to_nat i) toks).
Proof.
  unfold AbstractSyntaxTree.tokenAt.
  destruct (Z.ltb_spec i 0); [discriminate|].
  generalize (Z.to_nat i). intros n. revert toks.
  induction n as [|n IH]; intros [|x toks]; simpl; try discriminate.
  - intros E; injection E as ->. now left.
  - apply IH.
Qed.

Lemma jsLength_snoc {A : Type} (l : list A) (x : A) :
  jsLength (l ++ [x]) = jsLength l + 1.
Proof. unfold jsLength. rewrite length_app. simpl. lia. Qed.

(** ** Per-line bookkeeping *)

Lemma skipn_snoc_all (toks : list Token.t) (tk : Token.t) :
  skipn (Z.to_nat (jsLength toks)) (toks ++ [tk]) = [tk].
Proof.
  unfold jsLength. rewrite Nat2Z.id, skipn_app, skipn_all, Nat.sub_diag.
  reflexivity.
Qed.

Lemma skipn_snoc_inside (toks : list Token.t) (tk : Token.t) (i : Z) :
  i <= jsLength toks ->
  skipn (Z.to_nat i) (toks ++ [tk]) = skipn (Z.to_nat i) toks ++ [tk].
Proof.
  unfold jsLength. intros Hi. rewrite skipn_app.
  replace (Z.to_nat i - List.length toks)%nat with 0%nat by lia.
  reflexivity.
Qed.

Lemma processToken_spec (st : state) (tok : Token.t) (lo : Z) :
  streamOk lo (tokensPerLineOfs st) (tokensPerLineCount st) (ast st) ->
  Token.first tok = false ->
  lo <= tokStart tok -> tokStart tok <= tokStop tok ->
  exists st',
    processToken st tok = Returned st' /\ it st' = it st /\
    streamOk (tokStop tok) (tokensPerLineOfs st') (tokensPerLineCount st')
             (ast st') /\
    AbstractSyntaxTree.tokens (ast st') =
      AbstractSyntaxTree.tokens (ast st)
      ++ [if tokensPerLineCount st =? 0 then Token.setFirstFlag tok else tok].
Proof.
  destruct st as [cur lineOfs count a].
  cbn [tokensPerLineOfs tokensPerLineCount ast it].
  intros (Hch & (Hc0 & Hopen & Hsent & Hacc) & Hflags & Hdefs & Hall)
         Hfirst Hlo Hspan.
  unfold processToken. cbn [tokensPerLineOfs tokensPerLineCount ast it].
  set (tok' := if count =? 0 then Token.setFirstFlag tok else tok).
  replace (if count =? 0
           then AbstractSyntaxTree.setFirstFlagOfLast
                  (AbstractSyntaxTree.addToken a tok)
           else AbstractSyntaxTree.addToken a tok)
    with (AbstractSyntaxTree.addToken a tok')
    by (unfold tok'; destruct (count =? 0);
        [now rewrite setFirstFlagOfLast_addToken | reflexivity]).
  set (toks := AbstractSyntaxTree.tokens a) in *.
  assert (Hty : Token.type tok' = Token.type tok)
    by (unfold tok'; now destruct (count =? 0)).
  assert (Hstart : tokStart tok' = tokStart tok)
    by (unfold tok'; now destruct (count =? 0)).
  assert (Hstop : tokStop tok' = tokStop tok)
    by (unfold tok'; now destruct (count =? 0)).
  assert (Hflag : Token.first tok' = negb (lineOpen toks)).
  { rewrite Hopen. unfold tok'.
    destruct (Z.eqb_spec count 0) as [->|Hne]; [reflexivity|].
    rewrite Hfirst. symmetry. apply negb_false_iff, Z.ltb_lt. lia. }
  assert (Hch' : chained 0 (toks ++ [tok']) (tokStop tok)).
  { apply chained_app with (mid := lo); [exact Hch|].
    simpl. rewrite Hstart, Hstop. lia. }
  assert (Hflags' : firstFlagsOk (toks ++ [tok']))
    by now apply firstFlagsOk_snoc.
  pose proof (lineOpen_snoc toks tok') as Hopen'. rewrite Hty in Hopen'.
  destruct (isLineEndType (Token.type tok)) eqn:Hend.
  - destruct (Z.ltb_spec 0 count) as [Hpos|Hzero].
    + destruct (Hacc Hpos) as (Hofs & Hsum & Hnonend).
      destruct (lexer_cases (AbstractSyntaxTree.addToken a tok') lineOfs count)
        as (first & news & Hat & Hlex & Hcases);
        [lia | lia | cbn [AbstractSyntaxTree.addToken AbstractSyntaxTree.tokens];
                     fold toks; rewrite jsLength_snoc; lia |].
      cbn [AbstractSyntaxTree.addToken AbstractSyntaxTree.tokens
           AbstractSyntaxTree.statements AbstractSyntaxTree.definitions]
        in Hat, Hlex, Hcases.
      fold toks in Hat, Hlex, Hcases.
      rewrite tokenAt_app_l in Hat by lia.
      apply tokenAt_skipn in Hat.
      rewrite Forall_forall in Hnonend. specialize (Hnonend _ Hat).
      assert (Hnews : filter isDefinition news = news /\
                      Forall (fun x => Statement.type x = StatementType.Definition_)
                             news).
      { destruct Hcases as [[_ ->]|[[Hcom _]|[[_ ->]|(_ & _ & _ & ->)]]];
          try (split; [reflexivity | repeat constructor]).
        unfold isLineEndType in Hnonend. rewrite Hcom in Hnonend. discriminate. }
      destruct Hnews as [Hfilter Hdefsnews].
      rewrite Hlex. cbn [bind].
      eexists. split; [reflexivity|].
      cbn [tokensPerLineOfs tokensPerLineCount ast it
           AbstractSyntaxTree.tokens AbstractSyntaxTree.statements
           AbstractSyntaxTree.definitions].
      split; [reflexivity|]. split; [|reflexivity].
      split; [exact Hch'|]. split.
      { split; [lia|]. split; [exact Hopen'|]. split; [reflexivity | lia]. }
      split; [exact Hflags'|]. split; [now rewrite Hfilter, Hdefs|].
      apply Forall_app. now split.
    + assert (count = 0) by lia. subst count.
      eexists. split; [reflexivity|].
      cbn [tokensPerLineOfs tokensPerLineCount ast it
           AbstractSyntaxTree.addToken
           AbstractSyntaxTree.tokens AbstractSyntaxTree.statements
           AbstractSyntaxTree.definitions].
      fold toks.
      split; [reflexivity|]. split; [|reflexivity].
      split; [exact Hch'|]. split.
      { split; [lia|]. split; [exact Hopen'|]. split; [exact Hsent | lia]. }
      split; [exact Hflags'|]. now split.
  - eexists. split; [reflexivity|].
    unfold streamOk, lineOk.
    cbn [tokensPerLineOfs tokensPerLineCount ast it
         AbstractSyntaxTree.addToken
         AbstractSyntaxTree.tokens AbstractSyntaxTree.statements
         AbstractSyntaxTree.definitions].
    fold toks.
    split; [reflexivity|]. split; [|reflexivity].
    split; [exact Hch'|]. split; [|split; [exact Hflags' | now split]].
    split; [lia|]. split; [rewrite Hopen'; symmetry; apply Z.ltb_lt; lia|].
    split; [lia|]. intros _.
    assert (Hnonend' : isLineEndType (Token.type tok') = false) by congruence.
    destruct (Z.eqb_spec lineOfs (-1)) as [Hm1|Hset].
    + assert (count = 0) by (destruct (Z.eq_dec count 0); [assumption|];
                             assert (0 <= lineOfs) by (apply Hacc; lia); lia).
      subst count. rewrite jsLength_snoc.
      replace (jsLength toks + 1 - 1) with (jsLength toks) by lia.
      split; [unfold jsLength; lia|]. split; [lia|].
      rewrite skipn_snoc_all. now repeat constructor.
    + assert (Hpos : 0 < count)
        by (destruct (Z.eq_dec count 0) as [E|]; [apply Hsent in E|]; lia).
      destruct (Hacc Hpos) as (Hofs & Hsum & Hnonend).
      split; [exact Hofs|]. split; [rewrite jsLength_snoc; lia|].
      rewrite skipn_snoc_inside by lia.
      apply Forall_app. split; [exact Hnonend | now repeat constructor].
Qed.

Lemma streamOk_weaken (lo hi lineOfs count : Z) (a : AbstractSyntaxTree.t) :
  streamOk lo lineOfs count a -> lo <= hi -> streamOk hi lineOfs count a.
Proof.
  intros (Hch & Hrest) Hle. split; [|exact Hrest].
  now apply chained_weaken with (hi := lo).
Qed.

Lemma processTokens_spec (toks : list Token.t) :
  forall (st : state) (lo hi : Z),
    streamOk lo (tokensPerLineOfs st) (tokensPerLineCount st) (ast st) ->
    chained lo toks hi ->
    Forall (fun tk => Token.first tk = false) toks ->
    exists st',
      processTokens st toks = Returned st' /\ it st' = it st /\
      streamOk hi (tokensPerLineOfs st') (tokensPerLineCount st') (ast st').
Proof.
  induction toks as [|tok toks IH]; intros st lo hi Hok Hch Hfresh.
  - exists st. split; [reflexivity|]. split; [reflexivity|].
    now apply streamOk_weaken with (lo := lo).
  - destruct Hch as (Hlo & Hspan & Hrest).
    inversion Hfresh as [|? ? Hfirst Hfresh']; subst.
    destruct (processToken_spec st tok lo Hok Hfirst Hlo Hspan)
      as (st1 & Hrun & Hit & Hok1 & _).
    destruct (IH st1 (tokStop tok) hi Hok1 Hrest Hfresh')
      as (st2 & Hrun2 & Hit2 & Hok2).
    exists st2. cbn [processTokens]. rewrite Hrun. cbn [bind].
    split; [exact Hrun2|]. split; [congruence | exact Hok2].
Qed.

(** ** The main loop *)

Lemma initialState_Inv (s : JsString) : Inv s (initialState s).
Proof.
  unfold Inv, initialState, streamOk, lineOk, wfCursor, ParserIterator.new.
  cbn [it ast tokensPerLineOfs tokensPerLineCount ofs src len
       AbstractSyntaxTree.empty AbstractSyntaxTree.tokens
       AbstractSyntaxTree.statements AbstractSyntaxTree.definitions chained].
  assert (0 <= jsLength s) by (unfold jsLength; lia).
  repeat split; try reflexivity; try lia; try constructor.
  intros [|x pre] tk post E; discriminate.
Qed.

Lemma iteration_spec (s : JsString) (st : state) :
  Inv s st -> eof (it st) = false ->
  exists st',
    iteration s (jsLength s) st = Returned st' /\ Inv s st' /\
    ofs (it st) < ofs (it st').
Proof.
  intros [Hwf Hok] He. unfold iteration.
  destruct (recognize s (jsLength s) (it st) (tokensPerLineCount st))
    as [it' toks] eqn:Hrec.
  destruct (recognize_spec _ _ _ _ _ Hwf He Hrec) as (Hwf' & Hlt & Hch & Hfresh).
  destruct (processTokens_spec toks
              (mkState it' (tokensPerLineOfs st) (tokensPerLineCount st) (ast st))
              (ofs (it st)) (ofs it') Hok Hch Hfresh)
    as (st' & Hrun & Hit & Hok').
  cbn [it] in Hit.
  exists st'. split; [exact Hrun|]. unfold Inv. rewrite Hit.
  split; [split; assumption | exact Hlt].
Qed.

Lemma mainLoop_spec (s : JsString) (fuel : nat) :
  forall st,
    Inv s st -> jsLength s - ofs (it st) <= Z.of_nat fuel ->
    exists st',
      mainLoop s (jsLength s) fuel st = Returned st' /\ Inv s st' /\
      ofs (it st') = jsLength s.
Proof.
  induction fuel as [|fuel IH]; intros st HInv Hfuel.
  - assert (Hend : ofs (it st) = jsLength s)
      by (destruct HInv as [(_ & _ & ?) _]; lia).
    assert (He : eof (it st) = true).
    { unfold eof. destruct HInv as [(_ & -> & _) _]. apply Z.leb_le. lia. }
    exists st. cbn [mainLoop]. rewrite He.
    split; [reflexivity|]. split; assumption.
  - cbn [mainLoop]. destruct (eof (it st)) eqn:He.
    + exists st. split; [reflexivity|]. split; [exact HInv|].
      unfold eof in He. apply Z.leb_le in He.
      destruct HInv as [(_ & Hl & ?) _]. rewrite Hl in He. lia.
    + destruct (iteration_spec s st HInv He) as (st1 & Hrun & HInv1 & Hlt).
      rewrite Hrun. cbn [bind]. apply IH; [exact HInv1 | lia].
Qed.

Lemma scan_returns (s : JsString) :
  exists st,
    scan s = Returned st /\ Inv s st /\ ofs (it st) = jsLength s.
Proof.
  apply mainLoop_spec; [apply initialState_Inv|].
  unfold initialState, ParserIterator.new, jsLength. cbn [it ofs]. lia.
Qed.

(** [parse] returns, and its tree has the tokens of the scan. *)
Lemma parse_returns (s : JsString) :
  exists st a,
    scan s = Returned st /\ Inv s st /\ ofs (it st) = jsLength s /\
    parse s = Returned a /\
    AbstractSyntaxTree.tokens a = AbstractSyntaxTree.tokens (ast st) /\
    AbstractSyntaxTree.definitions a = AbstractSyntaxTree.statements a /\
    Forall (fun x => Statement.type x = StatementType.Definition_)
           (AbstractSyntaxTree.statements a).
Proof.
  destruct (scan_returns s) as (st & Hscan & HInv & Hend).
  exists st. unfold parse. rewrite Hscan. cbn [bind].
  pose proof HInv as [_ (Hch & (Hc0 & Hopen & Hsent & Hacc) & Hflags & Hdefs & Hall)].
  destruct (Z.ltb_spec 0 (tokensPerLineCount st)) as [Hpos|Hzero].
  - destruct (Hacc Hpos) as (Hofs & Hsum & Hnonend).
    destruct (lexer_cases (ast st) (tokensPerLineOfs st) (tokensPerLineCount st))
      as (first & news & Hat & Hlex & Hcases); [lia | lia | lia |].
    apply tokenAt_skipn in Hat.
    rewrite Forall_forall in Hnonend. specialize (Hnonend _ Hat).
    assert (Hnews : filter isDefinition news = news /\
                    Forall (fun x => Statement.type x = StatementType.Definition_)
                           news).
    { destruct Hcases as [[_ ->]|[[Hcom _]|[[_ ->]|(_ & _ & _ & ->)]]];
        try (split; [reflexivity | repeat constructor]).
      unfold isLineEndType in Hnonend. rewrite Hcom in Hnonend. discriminate. }
    destruct Hnews as [Hfilter Hdefsnews].
    eexists. split; [reflexivity|]. split; [exact HInv|]. split; [exact Hend|].
    split; [exact Hlex|].
    cbn [AbstractSyntaxTree.tokens AbstractSyntaxTree.statements
         AbstractSyntaxTree.definitions].
    split; [reflexivity|]. split; [now rewrite Hfilter, Hdefs|].
    apply Forall_app. now split.
  - exists (ast st). split; [reflexivity|]. split; [exact HInv|].
    split; [exact Hend|]. split; [reflexivity|]. split; [reflexivity|].
    split; assumption.
Qed.

(** ** Exact extent of the inner loops *)

Lemma skipn_charCodeAt (s : JsString) (i c : Z) :
  charCodeAt s i = Some c ->
  skipn (Z.to_nat i) s = c :: skipn (Z.to_nat (i + 1)) s.
Proof.
  unfold charCodeAt. destruct (Z.ltb_spec i 0); [discriminate|].
  replace (Z.to_nat (i + 1)) with (S (Z.to_nat i)) by lia.
  generalize (Z.to_nat i). intros n. revert s.
  induction n as [|n IH]; intros [|x s]; simpl; try discriminate.
  - intros E; injection E as ->. reflexivity.
  - apply IH.
Qed.

Lemma skipn_beyond (s : JsString) (i : Z) :
  jsLength s <= i -> skipn (Z.to_nat i) s = [].
Proof. unfold jsLength. intros Hi. apply skipn_all2. lia. Qed.

Lemma runLength_nonneg (p : Z -> bool) (l : JsString) : 0 <= runLength p l.
Proof.
  induction l as [|c l IH]; cbn [runLength]; [lia|]. destruct (p c); lia.
Qed.

Lemma advanceLoop_run (cond : option Z -> bool) (p : Z -> bool) (s : JsString)
    (fuel : nat) :
  (forall z, cond (Some z) = p z) ->
  forall it range,
    wfCursor s it ->
    jsLength s - ofs it <= Z.of_nat fuel ->
    let n := runLength p (skipn (Z.to_nat (ofs it)) s) in
    advanceLoop cond s (jsLength s) fuel it range
    = (ParserIterator.mk (src it) (len it) (ofs it + n) (row it) (col it + n),
       Range.mk (Range.offset range) (Range.row range) (Range.col range)
                (Range.length range + n)).
Proof.
  intros Hcond. induction fuel as [|fuel IH]; intros it range Hwf Hfuel n.
  - assert (Hend : jsLength s <= ofs it) by lia.
    unfold n. rewrite skipn_beyond by exact Hend. cbn [runLength advanceLoop].
    destruct it, range; cbn. f_equal; f_equal; lia.
  - cbn [advanceLoop].
    destruct (Z.ltb_spec (ofs it) (jsLength s)) as [Hlt|Hge].
    + destruct (charCodeAt_inside s (ofs it)) as [c Hc];
        [destruct Hwf as (_ & _ & ?); lia|].
      unfold n. rewrite (skipn_charCodeAt _ _ _ Hc). cbn [runLength andb].
      rewrite Hc, Hcond.
      destruct (p c).
      * rewrite IH; [| now apply wfCursor_next | cbn [next ofs]; lia].
        cbn [next ofs row col src len Range.inc Range.offset Range.row
             Range.col Range.length].
        f_equal; f_equal; lia.
      * destruct it, range; cbn. f_equal; f_equal; lia.
    + unfold n. rewrite skipn_beyond by exact Hge. cbn [runLength andb].
      destruct it, range; cbn. f_equal; f_equal; lia.
Qed.

Lemma advanceWhile_run (cond : option Z -> bool) (p : Z -> bool) (s : JsString)
    (it : ParserIterator.t) (range : Range.t) :
  (forall z, cond (Some z) = p z) ->
  wfCursor s it ->
  let n := runLength p (skipn (Z.to_nat (ofs it)) s) in
  advanceWhile cond s (jsLength s) it range
  = (ParserIterator.mk (src it) (len it) (ofs it + n) (row it) (col it + n),
     Range.mk (Range.offset range) (Range.row range) (Range.col range)
              (Range.length range + n)).
Proof.
  intros Hcond Hwf. unfold advanceWhile.
  apply advanceLoop_run; [exact Hcond | exact Hwf | lia].
Qed.

(** A run that meets no character failing the test goes to the end. *)
Lemma runLength_all (p : Z -> bool) (s : JsString) (i : Z) :
  0 <= i <= jsLength s ->
  (forall k c, i <= k < jsLength s -> charCodeAt s k = Some c -> p c = true) ->
  runLength p (skipn (Z.to_nat i) s) = jsLength s - i.
Proof.
  intros Hi Hall.
  remember (Z.to_nat (jsLength s - i)) as d eqn:Hd.
  revert i Hi Hall Hd. induction d as [|d IH]; intros i Hi Hall Hd.
  - rewrite skipn_beyond by lia. simpl. lia.
  - destruct (charCodeAt_inside s i) as [c Hc]; [lia|].
    rewrite (skipn_charCodeAt _ _ _ Hc). cbn [runLength].
    rewrite (Hall i c) by (assumption || lia).
    rewrite IH; [lia | lia | | lia].
    intros k c' Hk. apply Hall. lia.
Qed.

(** ** Order and coverage of the spans *)

Lemma chained_nth (toks : list Token.t) :
  forall lo hi i j ti tj,
    chained lo toks hi -> (i < j)%nat ->
    nth_error toks i = Some ti -> nth_error toks j = Some tj ->
    tokStop ti <= tokStart tj.
Proof.
  induction toks as [|tk toks IH]; intros lo hi i j ti tj Hch Hij Hi Hj.
  - destruct i; discriminate.
  - destruct Hch as (H1 & H2 & H3).
    destruct j as [|j]; [lia|]. cbn [nth_error] in Hj.
    destruct i as [|i]; cbn [nth_error] in Hi.
    + injection Hi as ->.
      apply chained_bounds in H3. destruct H3 as [_ H3].
      rewrite Forall_forall in H3.
      apply nth_error_In in Hj. apply H3 in Hj. lia.
    + apply (IH (tokStop tk) hi i j); [assumption | lia | assumption | assumption].
Qed.

Lemma coverCount_below (toks : list Token.t) :
  forall lo hi p, chained lo toks hi -> p < lo -> coverCount p toks = 0%nat.
Proof.
  induction toks as [|tk toks IH]; intros lo hi p Hch Hp; [reflexivity|].
  destruct Hch as (H1 & H2 & H3).
  unfold coverCount. cbn [filter].
  replace (inSpan p tk) with false
    by (symmetry; unfold inSpan; apply andb_false_iff; left; apply Z.leb_gt; lia).
  apply (IH (tokStop tk) hi); [assumption | lia].
Qed.

Lemma coverCount_chained (toks : list Token.t) :
  forall lo hi p, chained lo toks hi ->
    coverCount p toks = 1%nat \/ coverCount p toks = 0%nat.
Proof.
  induction toks as [|tk toks IH]; intros lo hi p Hch; [now right|].
  pose proof Hch as (H1 & H2 & H3).
  unfold coverCount. cbn [filter].
  destruct (inSpan p tk) eqn:Hin.
  - left. cbn [List.length]. f_equal.
    apply (coverCount_below toks (tokStop tk) hi); [assumption|].
    unfold inSpan in Hin. apply andb_prop in Hin. destruct Hin as [_ Hin].
    now apply Z.ltb_lt.
  - apply (IH (tokStop tk) hi). assumption.
Qed.

(** C8.  For every input buffer the parse returns a token stream whose
    spans do not overlap (a token ends at or before the start of every later
    token), whose start offsets do not decrease, and whose spans lie inside
    the buffer; every offset of the buffer lies under the span of exactly
    one token or of none (it was skipped), and the cursor ends at the end of
    the buffer. *)
Theorem token_spans_ordered_disjoint (s : JsString) :
  exists st a,
    scan s = Returned st /\ parse s = Returned a /\
    ofs (it st) = jsLength s /\
    AbstractSyntaxTree.tokens a = AbstractSyntaxTree.tokens (ast st) /\
    (forall i j ti tj,
       (i < j)%nat ->
       nth_error (AbstractSyntaxTree.tokens a) i = Some ti ->
       nth_error (AbstractSyntaxTree.tokens a) j = Some tj ->
       tokStop ti <= tokStart tj /\ tokStart ti <= tokStart tj) /\
    (forall tk, In tk (AbstractSyntaxTree.tokens a) ->
       0 <= tokStart tk /\ tokStart tk <= tokStop tk /\ tokStop tk <= jsLength s) /\
    (forall p, 0 <= p < jsLength s ->
       coverCount p (AbstractSyntaxTree.tokens a) = 1%nat \/
       coverCount p (AbstractSyntaxTree.tokens a) = 0%nat).
Proof.
  destruct (parse_returns s)
    as (st & a & Hscan & [Hwf (Hch & _)] & Hend & Hparse & Htoks & _).
  exists st, a. rewrite Htoks, Hend in *.
  split; [exact Hscan|]. split; [exact Hparse|]. split; [reflexivity|].
  split; [reflexivity|].
  pose proof (chained_bounds _ _ _ Hch) as [_ Hbounds].
  rewrite Forall_forall in Hbounds.
  split; [|split].
  - intros i j ti tj Hij Hi Hj.
    pose proof (chained_nth _ _ _ _ _ _ _ Hch Hij Hi Hj) as Hord.
    apply nth_error_In in Hi. apply Hbounds in Hi. lia.
  - intros tk Hin. apply Hbounds in Hin. lia.
  - intros p _. now apply (coverCount_chained _ 0 (jsLength s)).
Qed.

(** C9.  The main loop of the parse terminates: a turn taken from a state
    the loop can be in, before the end of the buffer, returns and moves the
    cursor forward by at least one character without leaving the buffer; the
    loop starts in such a state; so [length] turns are enough for the scan,
    and the parse returns. *)
Theorem parse_terminates (s : JsString) :
  Inv s (initialState s) /\
  (forall st,
     Inv s st -> eof (it st) = false ->
     exists st',
       iteration s (jsLength s) st = Returned st' /\ Inv s st' /\
       ofs (it st) + 1 <= ofs (it st') <= jsLength s) /\
  (exists st,
     mainLoop s (jsLength s) (List.length s) (initialState s) = Returned st /\
     eof (it st) = true) /\
  (exists a, parse s = Returned a).
Proof.
  split; [apply initialState_Inv|]. split; [|split].
  - intros st HInv He.
    destruct (iteration_spec s st HInv He) as (st' & Hrun & HInv' & Hlt).
    exists st'. split; [exact Hrun|]. split; [exact HInv'|].
    destruct HInv' as [(_ & _ & ?) _]. lia.
  - destruct (scan_returns s) as (st & Hscan & [(_ & Hl & _) _] & Hend).
    exists st. split; [exact Hscan|].
    unfold eof. rewrite Hl, Hend. apply Z.leb_refl.
  - destruct (parse_returns s) as (st & a & _ & _ & _ & Hparse & _).
    now exists a.
Qed.

(** ** The classifier's definitions *)

(** C4.  On a logical line (a token span of at least one token inside the
    stream) the classifier returns, leaves the tokens alone and appends
    statements [news]; [news] holds a Definition statement exactly when the
    first token is an Identifier that is no opcode name -- then [news] is
    the Definition spanning that one token -- or the line has more than one
    token, starts with a Macro whose text is [!macro], [!set] or [!addr],
    and goes on with an Identifier that is no opcode name -- then [news] is
    the Definition spanning the second token; every Definition appended to
    the statements is appended to the definitions too. *)
Theorem classifier_definition_iff (a : AbstractSyntaxTree.t) (ofs count : Z) :
  0 <= ofs -> 1 <= count ->
  ofs + count <= jsLength (AbstractSyntaxTree.tokens a) ->
  exists first a' news,
    AbstractSyntaxTree.tokenAt (AbstractSyntaxTree.tokens a) ofs = Some first /\
    lexer a ofs count = Returned a' /\
    AbstractSyntaxTree.tokens a' = AbstractSyntaxTree.tokens a /\
    AbstractSyntaxTree.statements a' = AbstractSyntaxTree.statements a ++ news /\
    AbstractSyntaxTree.definitions a'
      = AbstractSyntaxTree.definitions a ++ filter isDefinition news /\
    (filter isDefinition news <> [] <->
       definesByLabel first \/
       definesByDirective (AbstractSyntaxTree.tokens a) ofs count first) /\
    (definesByLabel first ->
       news = [Statement.mk StatementType.Definition_ ofs 1]) /\
    (definesByDirective (AbstractSyntaxTree.tokens a) ofs count first ->
       news = [Statement.mk StatementType.Definition_ (ofs + 1) 1]).
Proof.
  intros Hofs Hcount Hin.
  destruct (lexer_cases a ofs count Hofs Hcount Hin)
    as (first & news & Hat & Hlex & Hcases).
  exists first. eexists. exists news.
  split; [exact Hat|]. split; [exact Hlex|].
  cbn [AbstractSyntaxTree.tokens AbstractSyntaxTree.statements
       AbstractSyntaxTree.definitions].
  split; [reflexivity|]. split; [reflexivity|]. split; [reflexivity|].
  assert (Hexcl : definesByLabel first ->
                  definesByDirective (AbstractSyntaxTree.tokens a) ofs count first ->
                  False).
  { intros [E1 _] (_ & E2 & _). congruence. }
  destruct Hcases as [[Hl ->]|[[Hcom ->]|[[Hd ->]|(Hnl & Hnc & Hnd & ->)]]].
  - split; [split; [now left | discriminate]|].
    split; [reflexivity | intros Hd; now destruct (Hexcl Hl Hd)].
  - assert (Hnl : ~ definesByLabel first) by (intros [E _]; congruence).
    assert (Hnd : ~ definesByDirective (AbstractSyntaxTree.tokens a) ofs count first)
      by (intros (_ & E & _); congruence).
    split; [split; [intros E; now destruct E | tauto]|].
    split; [intros Hl; now destruct (Hnl Hl) | intros Hd; now destruct (Hnd Hd)].
  - split; [split; [now right | discriminate]|].
    split; [intros Hl; now destruct (Hexcl Hl Hd) | reflexivity].
  - split; [split; [intros E; now destruct E | tauto]|].
    split; [intros Hl; now destruct (Hnl Hl) | intros Hd; now destruct (Hnd Hd)].
Qed.

(** ** The first-on-line flag *)

(** C10.  When the loop body handles an emitted token (created with the
    flag clear) in a state whose counters agree with the stream, it returns
    and appends the token to the stream with the flag set exactly when the
    per-line count was zero; a LineBreak or Comment token handled with
    count zero gets the flag although it is not accumulated: the counters
    and the statements stay as they were.  Over a whole parse, a token
    carries the flag exactly when no line is open after the tokens before
    it. *)
Theorem first_flag_iff_count_zero :
  (forall (st : state) (ty : TokenType.t) (s : JsString) (r : Range.t),
     lineOk (tokensPerLineOfs st) (tokensPerLineCount st)
            (AbstractSyntaxTree.tokens (ast st)) ->
     exists st' tk,
       processToken st (Token.new ty s r) = Returned st' /\
       AbstractSyntaxTree.tokens (ast st')
         = AbstractSyntaxTree.tokens (ast st) ++ [tk] /\
       Token.type tk = ty /\ Token.src tk = s /\ Token.range tk = r /\
       (Token.first tk = true <-> tokensPerLineCount st = 0) /\
       (isLineEndType ty = true -> tokensPerLineCount st = 0 ->
          Token.first tk = true /\
          tokensPerLineCount st' = 0 /\
          tokensPerLineOfs st' = tokensPerLineOfs st /\
          AbstractSyntaxTree.statements (ast st')
            = AbstractSyntaxTree.statements (ast st))) /\
  (forall s : JsString,
     exists a, parse s = Returned a /\
               firstFlagsOk (AbstractSyntaxTree.tokens a)).
Proof.
  split.
  - intros [cur lineOfs count a] ty s r.
    cbn [tokensPerLineOfs tokensPerLineCount ast].
    intros (Hc0 & Hopen & Hsent & Hacc).
    unfold processToken. cbn [tokensPerLineOfs tokensPerLineCount ast it].
    set (tk := if count =? 0 then Token.setFirstFlag (Token.new ty s r)
               else Token.new ty s r).
    replace (if count =? 0
             then AbstractSyntaxTree.setFirstFlagOfLast
                    (AbstractSyntaxTree.addToken a (Token.new ty s r))
             else AbstractSyntaxTree.addToken a (Token.new ty s r))
      with (AbstractSyntaxTree.addToken a tk)
      by (unfold tk; destruct (count =? 0);
          [now rewrite setFirstFlagOfLast_addToken | reflexivity]).
    assert (Hflag : Token.first tk = true <-> count = 0).
    { unfold tk. destruct (Z.eqb_spec count 0); cbn; split; congruence. }
    assert (Hfields : Token.type tk = ty /\ Token.src tk = s /\ Token.range tk = r)
      by (unfold tk; destruct (count =? 0); now cbn).
    destruct Hfields as (F1 & F2 & F3).
    cbn [Token.new Token.type].
    destruct (isLineEndType ty) eqn:Hend.
    + destruct (Z.ltb_spec 0 count) as [Hpos|Hzero].
      * destruct (Hacc Hpos) as (Hofs & Hsum & _).
        destruct (lexer_cases (AbstractSyntaxTree.addToken a tk) lineOfs count)
          as (first & news & _ & Hlex & _);
          [lia | lia | cbn [AbstractSyntaxTree.addToken AbstractSyntaxTree.tokens];
                       rewrite jsLength_snoc; lia |].
        rewrite Hlex. cbn [bind]. eexists. exists tk.
        split; [reflexivity|].
        cbn [ast tokensPerLineCount tokensPerLineOfs AbstractSyntaxTree.tokens
             AbstractSyntaxTree.addToken].
        split; [reflexivity|]. split; [exact F1|]. split; [exact F2|]. split; [exact F3|].
        split; [exact Hflag|].
        intros _ E. lia.
      * assert (count = 0) by lia. subst count.
        eexists. exists tk. split; [reflexivity|].
        cbn [ast tokensPerLineCount tokensPerLineOfs AbstractSyntaxTree.tokens
             AbstractSyntaxTree.statements AbstractSyntaxTree.addToken].
        split; [reflexivity|]. split; [exact F1|]. split; [exact F2|]. split; [exact F3|].
        split; [exact Hflag|].
        intros _ _. split; [now apply Hflag|]. now repeat split.
    + eexists. exists tk. split; [reflexivity|].
      cbn [ast tokensPerLineCount tokensPerLineOfs AbstractSyntaxTree.tokens
           AbstractSyntaxTree.addToken].
      split; [reflexivity|]. split; [exact F1|]. split; [exact F2|]. split; [exact F3|].
        split; [exact Hflag|].
      intros E; discriminate.
  - intros s.
    destruct (parse_returns s)
      as (st & a & _ & [_ (_ & _ & Hflags & _)] & _ & Hparse & Htoks & _).
    exists a. split; [exact Hparse|]. now rewrite Htoks.
Qed.

(** ** The [+] sigil *)

(** C5.  Where the scanner meets [+] followed by a symbol-constituent
    character, it emits, with no token accumulated for the line, a Reference
    token of one character for the [+] and then an Identifier token for the
    name; with tokens accumulated it skips the [+] and emits the Identifier
    alone.  In both cases the Identifier starts right after the [+] and
    spans the run of symbol-constituent characters there, and the cursor
    stops behind it. *)
Theorem plus_sigil_reference_or_skip (s : JsString) (cur : ParserIterator.t)
    (count c2 : Z) :
  wfCursor s cur ->
  charCodeAt s (ofs cur) = Some CharCode.Plus ->
  charCodeAt s (ofs cur + 1) = Some c2 ->
  isSymbolChar c2 = true ->
  let n := runLength isSymbolChar (skipn (Z.to_nat (ofs cur + 1)) s) in
  let reference :=
    Token.new TokenType.Reference s
              (Range.mk (ofs cur) (row cur) (col cur) 1) in
  let identifier :=
    Token.new TokenType.Identifier s
              (Range.mk (ofs cur + 1) (row cur) (col cur + 1) n) in
  1 <= n /\
  recognize s (jsLength s) cur count
  = (ParserIterator.mk s (jsLength s) (ofs cur + 1 + n) (row cur)
                       (col cur + 1 + n),
     if count =? 0 then [reference; identifier] else [identifier]).
Proof.
  intros Hwf Hplus Hc2 Hsym n reference identifier.
  pose proof (charCodeAt_Some _ _ _ Hplus) as Hin.
  pose proof (charCodeAt_Some _ _ _ Hc2) as Hin2.
  pose proof Hwf as (Hsrc & Hlen & _).
  assert (Hn : n = 1 + runLength isSymbolChar (skipn (Z.to_nat (ofs cur + 1 + 1)) s)).
  { unfold n. rewrite (skipn_charCodeAt _ _ _ Hc2). cbn [runLength].
    now rewrite Hsym. }
  split.
  { pose proof (runLength_nonneg isSymbolChar
                  (skipn (Z.to_nat (ofs cur + 1 + 1)) s)). lia. }
  unfold recognize, peek, eof.
  replace (len cur <=? ofs cur) with false by (symmetry; apply Z.leb_gt; lia).
  rewrite Hsrc, Hplus.
  replace (ofs cur + 1 <? jsLength s) with true by (symmetry; apply Z.ltb_lt; lia).
  rewrite Hc2.
  change (codeEq (Some CharCode.Plus) CharCode.CarriageReturn
          || codeEq (Some CharCode.Plus) CharCode.LineFeed) with false.
  change (codeEq (Some CharCode.Plus) CharCode.Semicolon) with false.
  change (codeEq (Some CharCode.Plus) CharCode.Plus) with true.
  cbv iota. cbn [andb].
  assert (Hnp : codeEq (Some c2) CharCode.Plus = false).
  { unfold codeEq. destruct (Z.eqb_spec c2 CharCode.Plus) as [->|]; [|reflexivity].
    rewrite isSymbolChar_plus in Hsym. discriminate. }
  rewrite Hnp. cbn [onCode]. rewrite Hsym, orb_true_r.
  assert (Hwf1 : wfCursor s (next cur)) by (apply wfCursor_next; [assumption | lia]).
  destruct (count =? 0).
  - cbn [negb].
    rewrite (advanceWhile_run (onCode isSymbolChar) isSymbolChar s (next cur))
      by (reflexivity || assumption).
    cbn [next ofs row col src len Range.new Range.offset Range.row Range.col
         Range.length Range.inc app].
    fold n. rewrite Hsrc, Hlen, Z.add_0_l. reflexivity.
  - cbn [negb].
    assert (Hwf2 : wfCursor s (next (next cur)))
      by (apply wfCursor_next; [assumption | cbn [next ofs]; lia]).
    rewrite (advanceWhile_run (onCode isSymbolChar) isSymbolChar s (next (next cur)))
      by (reflexivity || assumption).
    cbn [next ofs row col src len Range.new Range.offset Range.row Range.col
         Range.length Range.inc app].
    rewrite Hsrc, Hlen, Hn. unfold identifier.
    f_equal; [f_equal; lia|]. do 3 f_equal. lia.
Qed.

(** ** Strings without a closing quote *)

Lemma unterminated_string_step (s : JsString) (cur : ParserIterator.t)
    (count q : Z) :
  wfCursor s cur ->
  charCodeAt s (ofs cur) = Some q ->
  q = CharCode.SingleQuote \/ q = CharCode.DoubleQuote ->
  (forall k, ofs cur < k < jsLength s -> charCodeAt s k <> Some q) ->
  recognize s (jsLength s) cur count
  = (ParserIterator.mk s (jsLength s) (jsLength s) (row cur)
                       (col cur + (jsLength s - ofs cur)),
     [Token.new TokenType.String s
                (Range.mk (ofs cur + 1) (row cur) (col cur + 1)
                          (jsLength s - (ofs cur + 1)))]).
Proof.
  intros Hwf Hq Hquote Hopen.
  pose proof (charCodeAt_Some _ _ _ Hq) as Hin.
  pose proof Hwf as (Hsrc & Hlen & _).
  assert (Hwf1 : wfCursor s (next cur)) by (apply wfCursor_next; [assumption | lia]).
  assert (Hrun : runLength (fun z => negb (z =? q))
                           (skipn (Z.to_nat (ofs cur + 1)) s)
                 = jsLength s - (ofs cur + 1)).
  { apply runLength_all; [lia|].
    intros k c Hk Hc. apply negb_true_iff, Z.eqb_neq. intros ->.
    apply (Hopen k); [lia | exact Hc]. }
  assert (Halpha : isAlpha q = false)
    by (destruct Hquote as [-> | ->];
        [apply isAlpha_singleQuote | apply isAlpha_doubleQuote]).
  unfold recognize, peek, eof.
  replace (len cur <=? ofs cur) with false by (symmetry; apply Z.leb_gt; lia).
  rewrite Hsrc, Hq. cbn [onCode]. rewrite Halpha.
  replace (codeEq (Some q) CharCode.CarriageReturn
           || codeEq (Some q) CharCode.LineFeed) with false
    by (destruct Hquote as [-> | ->]; reflexivity).
  replace (codeEq (Some q) CharCode.Semicolon) with false
    by (destruct Hquote as [-> | ->]; reflexivity).
  replace (codeEq (Some q) CharCode.Plus) with false
    by (destruct Hquote as [-> | ->]; reflexivity).
  replace (codeEq (Some q) CharCode.Period) with false
    by (destruct Hquote as [-> | ->]; reflexivity).
  replace (codeEq (Some q) CharCode.Underscore) with false
    by (destruct Hquote as [-> | ->]; reflexivity).
  replace (codeEq (Some q) CharCode.Exclamation) with false
    by (destruct Hquote as [-> | ->]; reflexivity).
  replace (codeEq (Some q) CharCode.SingleQuote
           || codeEq (Some q) CharCode.DoubleQuote) with true
    by (destruct Hquote as [-> | ->]; reflexivity).
  cbn [andb orb].
  rewrite (advanceWhile_run (notQuote (Some q)) (fun z => negb (z =? q)) s (next cur))
    by (reflexivity || assumption).
  cbn [next ofs row col src len Range.new Range.offset Range.row Range.col
       Range.length].
  rewrite Hrun, Hsrc, Hlen.
  replace (ofs cur + 1 + (jsLength s - (ofs cur + 1)) <? jsLength s) with false
    by (symmetry; apply Z.ltb_ge; lia).
  f_equal. f_equal; lia.
Qed.

(** C6.  Where the scanner meets an opening quote that no later character
    of the input matches, it emits one String token whose span starts
    behind the quote and runs to the end of the input, and the cursor stops
    at the end of the input; the parse of every input returns; the parse of
    ['hello] returns exactly one token, a String token whose span is the
    five characters of [hello]. *)
Theorem unterminated_string_runs_to_end :
  (forall (s : JsString) (cur : ParserIterator.t) (count q : Z),
     wfCursor s cur ->
     charCodeAt s (ofs cur) = Some q ->
     q = CharCode.SingleQuote \/ q = CharCode.DoubleQuote ->
     (forall k, ofs cur < k < jsLength s -> charCodeAt s k <> Some q) ->
     exists it' tk,
       recognize s (jsLength s) cur count = (it', [tk]) /\
       Token.type tk = TokenType.String /\
       tokStart tk = ofs cur + 1 /\ tokStop tk = jsLength s /\
       ofs it' = jsLength s) /\
  (forall s : JsString, exists a, parse s = Returned a) /\
  (exists a tk,
     parse (js "'hello") = Returned a /\
     AbstractSyntaxTree.tokens a = [tk] /\
     Token.type tk = TokenType.String /\
     tokStart tk = 1 /\ Range.length (Token.range tk) = 5 /\
     Token.text tk = js "hello").
Proof.
  split; [|split].
  - intros s cur count q Hwf Hq Hquote Hopen.
    rewrite (unterminated_string_step s cur count q Hwf Hq Hquote Hopen).
    eexists. eexists. split; [reflexivity|].
    unfold tokStart, tokStop, Range.stop. cbn. repeat split. lia.
  - intros s. destruct (parse_returns s) as (st & a & _ & _ & _ & Hparse & _).
    now exists a.
  - assert (Hstep :
      recognize (js "'hello") (jsLength (js "'hello"))
                (ParserIterator.new (js "'hello")) 0
      = (ParserIterator.mk (js "'hello") 6 6 0 6,
         [Token.new TokenType.String (js "'hello") (Range.mk 1 0 1 5)])).
    { apply (unterminated_string_step (js "'hello")
               (ParserIterator.new (js "'hello")) 0 CharCode.SingleQuote).
      - unfold wfCursor. cbn. repeat split; discriminate.
      - reflexivity.
      - now left.
      - intros k Hk. change (jsLength (js "'hello")) with 6 in Hk.
        cbn [ParserIterator.new ofs] in Hk.
        assert (Hcases : k = 1 \/ k = 2 \/ k = 3 \/ k = 4 \/ k = 5) by lia.
        destruct Hcases as [->|[->|[->|[->| ->]]]]; discriminate. }
    unfold parse, scan.
    change (List.length (js "'hello")) with 6%nat.
    cbn [mainLoop]. unfold iteration.
    change (eof (it (initialState (js "'hello")))) with false. cbv iota.
    change (it (initialState (js "'hello")))
      with (ParserIterator.new (js "'hello")).
    change (tokensPerLineCount (initialState (js "'hello"))) with 0.
    rewrite Hstep.
    eexists. eexists. split; [reflexivity|]. now repeat split.
Qed.

(** ** Comment lines *)

(** C1 (amended).  Parsing ["; comment only\n"] returns the Comment token
    spanning the fourteen characters of the comment, then the LineBreak
    token, and neither a statement nor a definition: a Comment token ends a
    line without being accumulated, so the classifier is not called on it.
    No parse produces a Comment statement.  The classifier itself, given a
    token span inside the stream whose first token is a Comment token,
    appends one Comment statement spanning that one token. *)
Theorem comment_line_yields_token_not_statement :
  (exists a comment lineBreak,
     parse (js "; comment only" ++ [CharCode.LineFeed]) = Returned a /\
     AbstractSyntaxTree.tokens a = [comment; lineBreak] /\
     Token.type comment = TokenType.Comment /\
     tokStart comment = 0 /\ tokStop comment = 14 /\
     Token.first comment = true /\
     Token.type lineBreak = TokenType.LineBreak /\
     AbstractSyntaxTree.statements a = [] /\
     AbstractSyntaxTree.definitions a = []) /\
  (forall s : JsString,
     exists a, parse s = Returned a /\
       Forall (fun x => Statement.type x <> StatementType.Comment)
              (AbstractSyntaxTree.statements a)) /\
  (forall (a : AbstractSyntaxTree.t) (ofs count : Z) (first : Token.t),
     0 <= ofs -> 1 <= count ->
     ofs + count <= jsLength (AbstractSyntaxTree.tokens a) ->
     AbstractSyntaxTree.tokenAt (AbstractSyntaxTree.tokens a) ofs = Some first ->
     Token.type first = TokenType.Comment ->
     lexer a ofs count
     = Returned (AbstractSyntaxTree.addStatement
                   a (Statement.mk StatementType.Comment ofs 1))).
Proof.
  split; [|split].
  - vm_compute. eexists. eexists. eexists. split; [reflexivity|].
    now repeat split.
  - intros s.
    destruct (parse_returns s) as (st & a & _ & _ & _ & Hparse & _ & _ & Hall).
    exists a. split; [exact Hparse|].
    eapply Forall_impl; [|exact Hall]. cbn. intros x ->. discriminate.
  - intros a ofs count first Hofs Hcount Hin Hat Hty.
    unfold lexer.
    replace (count <? 1) with false by (symmetry; apply Z.ltb_ge; lia).
    replace (jsLength (AbstractSyntaxTree.tokens a) <? ofs + count) with false
      by (symmetry; apply Z.ltb_ge; lia).
    rewrite Hat, Hty. reflexivity.
Qed.

(** ** Line breaks *)

(** C3 (what the code does).  Scanning CR LF emits one LineBreak token and
    scanning LF emits one LineBreak token; the span of the first has length
    one and the span of the second has length zero: the span grows for the
    LF of a CR LF pair only, not for the character [nextline] steps over. *)
Theorem linebreak_span_lengths :
  (exists a tk,
     parse [CharCode.CarriageReturn; CharCode.LineFeed] = Returned a /\
     AbstractSyntaxTree.tokens a = [tk] /\
     Token.type tk = TokenType.LineBreak /\
     tokStart tk = 0 /\ Range.length (Token.range tk) = 1) /\
  (exists a tk,
     parse [CharCode.LineFeed] = Returned a /\
     AbstractSyntaxTree.tokens a = [tk] /\
     Token.type tk = TokenType.LineBreak /\
     tokStart tk = 0 /\ Range.length (Token.range tk) = 0).
Proof.
  split; vm_compute; eexists; eexists; (split; [reflexivity|]);
    now repeat split.
Qed.

(** ** Position lookup *)

(** C2 (what the code does).  The test [c == '.'] that is meant to stop
    the leftward expansion behind a period compares a char code with a
    string and never holds, so the expansion goes on through the period:
    for ["ab.cd"] and offset 4 the answer is ["ab.cd"], not [".cd"]. *)
Theorem period_does_not_stop_expansion :
  isSymbolChar 97 = true -> isSymbolChar 98 = true -> isSymbolChar 99 = true ->
  (forall c, looseEqNumStr c (js ".") = false) /\
  getTokenAtSourcePos (js "ab.cd") 4 false false = Some (js "ab.cd").
Proof.
  intros Ha Hb Hc. split; [apply looseEq_period_never|].
  unfold getTokenAtSourcePos.
  change (Z.to_nat 4) with 4%nat.
  cbn [expandLeft]. cbn [Z.ltb Z.compare Z.sub Z.add Z.opp Z.pos_sub
                         Pos.pred_double Pos.compare Pos.compare_cont].
  change (charCodeAt (js "ab.cd") 3) with (Some 99).
  change (charCodeAt (js "ab.cd") 2) with (Some 46).
  change (charCodeAt (js "ab.cd") 1) with (Some 98).
  change (charCodeAt (js "ab.cd") 0) with (Some 97).
  cbn [onCode]. rewrite Ha, Hb, Hc. rewrite !looseEq_period_never.
  reflexivity.
Qed.

End Scanner.

(* ------------------------------------------------------------------ *)
(** ** The properties at concrete inputs *)
(* ------------------------------------------------------------------ *)

(** The claim "a comment-only line yields exactly one Comment statement"
    fails: the parse of ["; comment only\n"] returns a tree without any
    statement. *)
Lemma comment_only_line_has_no_comment_statement :
  ~ exists a x,
      @AcmeParser.parse SpecHelpers.helpers
        (js "; comment only" ++ [CharCode.LineFeed]) = Returned a /\
      AbstractSyntaxTree.statements a = [x] /\
      Statement.type x = StatementType.Comment.
Proof.
  intros (a & x & Hparse & Hst & _).
  vm_compute in Hparse. injection Hparse as <-. discriminate.
Qed.

(** The classifier on the two tokens of ["!macro foo"]. *)
Lemma classifier_definition_iff_witness :
  let a := AbstractSyntaxTree.mk
             [Token.mk TokenType.Macro (js "!macro foo") (Range.mk 0 0 0 6) true;
              Token.mk TokenType.Identifier (js "!macro foo") (Range.mk 7 0 7 3) false]
             [] [] in
  (0 <= 0 /\ 1 <= 2 /\ 0 + 2 <= jsLength (AbstractSyntaxTree.tokens a)) /\
  exists first a' news,
    AbstractSyntaxTree.tokenAt (AbstractSyntaxTree.tokens a) 0 = Some first /\
    @AcmeParser.lexer SpecHelpers.helpers a 0 2 = Returned a' /\
    AbstractSyntaxTree.tokens a' = AbstractSyntaxTree.tokens a /\
    AbstractSyntaxTree.statements a' = AbstractSyntaxTree.statements a ++ news /\
    AbstractSyntaxTree.definitions a'
      = AbstractSyntaxTree.definitions a ++ filter isDefinition news /\
    (filter isDefinition news <> [] <->
       @definesByLabel SpecHelpers.helpers first \/
       @definesByDirective SpecHelpers.helpers
          (AbstractSyntaxTree.tokens a) 0 2 first) /\
    (@definesByLabel SpecHelpers.helpers first ->
       news = [Statement.mk StatementType.Definition_ 0 1]) /\
    (@definesByDirective SpecHelpers.helpers
        (AbstractSyntaxTree.tokens a) 0 2 first ->
       news = [Statement.mk StatementType.Definition_ (0 + 1) 1]).
Proof.
  intros a.
  assert (H : 0 <= 0 /\ 1 <= 2 /\ 0 + 2 <= jsLength (AbstractSyntaxTree.tokens a))
    by (vm_compute; repeat split; discriminate).
  split; [exact H|].
  destruct H as (H1 & H2 & H3).
  exact (@classifier_definition_iff SpecHelpers.helpers a 0 2 H1 H2 H3).
Defined.

(** The sigil rule at the start of ["+irq"]. *)
Lemma plus_sigil_reference_or_skip_witness :
  let s := js "+irq" in
  let cur := ParserIterator.new s in
  (wfCursor s cur /\
   charCodeAt s (ParserIterator.ofs cur) = Some CharCode.Plus /\
   charCodeAt s (ParserIterator.ofs cur + 1) = Some 105 /\
   SpecHelpers.isSymbolChar 105 = true) /\
  1 <= 3 /\
  @AcmeParser.recognize SpecHelpers.helpers s (jsLength s) cur 0
  = (ParserIterator.mk s 4 4 0 4,
     [Token.new TokenType.Reference s (Range.mk 0 0 0 1);
      Token.new TokenType.Identifier s (Range.mk 1 0 1 3)]).
Proof.
  intros s cur.
  assert (H : wfCursor s cur /\
              charCodeAt s (ParserIterator.ofs cur) = Some CharCode.Plus /\
              charCodeAt s (ParserIterator.ofs cur + 1) = Some 105 /\
              SpecHelpers.isSymbolChar 105 = true).
  { unfold wfCursor. vm_compute. repeat split; discriminate. }
  split; [exact H|].
  destruct H as (H1 & H2 & H3 & H4).
  exact (@plus_sigil_reference_or_skip SpecHelpers.helpers s cur 0 105
           H1 H2 H3 H4).
Defined.

(** The lookup in ["ab.cd"] with the helpers of [SpecHelpers]. *)
Lemma period_does_not_stop_expansion_witness :
  (SpecHelpers.isSymbolChar 97 = true /\ SpecHelpers.isSymbolChar 98 = true /\
   SpecHelpers.isSymbolChar 99 = true) /\
  (forall c, looseEqNumStr c (js ".") = false) /\
  @AcmeParser.getTokenAtSourcePos SpecHelpers.helpers (js "ab.cd") 4 false false
  = Some (js "ab.cd").
Proof.
  split; [repeat split|].
  exact (@period_does_not_stop_expansion SpecHelpers.helpers
           eq_refl eq_refl eq_refl).
Defined.

(** A LineBreak token handled in the initial state. *)
Lemma first_flag_iff_count_zero_witness :
  let st := @AcmeParser.initialState [CharCode.LineFeed] in
  lineOk (AcmeParser.tokensPerLineOfs st) (AcmeParser.tokensPerLineCount st)
         (AbstractSyntaxTree.tokens (AcmeParser.ast st)) /\
  exists st' tk,
    @AcmeParser.processToken SpecHelpers.helpers st
      (Token.new TokenType.LineBreak [CharCode.LineFeed] (Range.new 0 0 0))
    = Returned st' /\
    AbstractSyntaxTree.tokens (AcmeParser.ast st')
      = AbstractSyntaxTree.tokens (AcmeParser.ast st) ++ [tk] /\
    Token.type tk = TokenType.LineBreak /\
    Token.src tk = [CharCode.LineFeed] /\
    Token.range tk = Range.new 0 0 0 /\
    (Token.first tk = true <-> AcmeParser.tokensPerLineCount st = 0) /\
    (AcmeParser.isLineEndType TokenType.LineBreak = true ->
     AcmeParser.tokensPerLineCount st = 0 ->
       Token.first tk = true /\
       AcmeParser.tokensPerLineCount st' = 0 /\
       AcmeParser.tokensPerLineOfs st' = AcmeParser.tokensPerLineOfs st /\
       AbstractSyntaxTree.statements (AcmeParser.ast st')
         = AbstractSyntaxTree.statements (AcmeParser.ast st)).
Proof.
  intros st.
  assert (H : lineOk (AcmeParser.tokensPerLineOfs st)
                     (AcmeParser.tokensPerLineCount st)
                     (AbstractSyntaxTree.tokens (AcmeParser.ast st))).
  { unfold lineOk. cbn. repeat split; try discriminate; try reflexivity. }
  split; [exact H|].
  exact (proj1 (@first_flag_iff_count_zero SpecHelpers.helpers) st
           TokenType.LineBreak [CharCode.LineFeed] (Range.new 0 0 0) H).
Defined.

(** The quote at offset 1 of ["x'hello"]. *)
Lemma unterminated_string_runs_to_end_witness :
  let s := js "x'hello" in
  let cur := ParserIterator.mk s 7 1 0 1 in
  exists it' tk,
    @AcmeParser.recognize SpecHelpers.helpers s (jsLength s) cur 1 = (it', [tk]) /\
    Token.type tk = TokenType.String /\
    tokStart tk = ParserIterator.ofs cur + 1 /\ tokStop tk = jsLength s /\
    ParserIterator.ofs it' = jsLength s.
Proof.
  intros s cur.
  apply (proj1 (@unterminated_string_runs_to_end SpecHelpers.helpers)
           s cur 1 CharCode.SingleQuote).
  - unfold wfCursor. vm_compute. repeat split; discriminate.
  - reflexivity.
  - now left.
  - intros k Hk. change (jsLength s) with 7 in Hk. cbn in Hk.
    assert (Hcases : k = 2 \/ k = 3 \/ k = 4 \/ k = 5 \/ k = 6) by lia.
    destruct Hcases as [->|[->|[->|[->| ->]]]]; discriminate.
Defined.

(** The classifier on a stream that starts with a Comment token. *)
Lemma comment_line_yields_token_not_statement_witness :
  let a := AbstractSyntaxTree.mk
             [Token.mk TokenType.Comment (js "; c") (Range.mk 0 0 0 3) true]
             [] [] in
  @AcmeParser.lexer SpecHelpers.helpers a 0 1
  = Returned (AbstractSyntaxTree.addStatement
                a (Statement.mk StatementType.Comment 0 1)).
Proof.
  intros a.
  apply (proj2 (proj2 (@comment_line_yields_token_not_statement
                         SpecHelpers.helpers))
           a 0 1 (Token.mk TokenType.Comment (js "; c") (Range.mk 0 0 0 3) true)).
  - discriminate.
  - discriminate.
  - vm_compute. discriminate.
  - reflexivity.
  - reflexivity.
Defined.

(** The first turn of the main loop on the buffer ["ab"]. *)
Lemma parse_terminates_witness :
  let s := js "ab" in
  let st := @AcmeParser.initialState s in
  exists st',
    @AcmeParser.iteration SpecHelpers.helpers s (jsLength s) st = Returned st' /\
    Inv s st' /\
    ParserIterator.ofs (AcmeParser.it st) + 1
      <= ParserIterator.ofs (AcmeParser.it st') <= jsLength s.
Proof.
  intros s st.
  apply (proj1 (proj2 (@parse_terminates SpecHelpers.helpers s)) st).
  - exact (proj1 (@parse_terminates SpecHelpers.helpers s)).
  - reflexivity.
Defined.

(** The sigil examples: [+irq] at the start of a line, and [a+irq]. *)
Example plus_irq_first_on_line :
  exists a,
    @AcmeParser.parse SpecHelpers.helpers (js "+irq") = Returned a /\
    map (fun tk => (Token.type tk, tokStart tk, tokStop tk))
        (AbstractSyntaxTree.tokens a)
    = [(TokenType.Reference, 0, 1); (TokenType.Identifier, 1, 4)].
Proof. vm_compute. eexists. split; reflexivity. Qed.

Example plus_irq_after_identifier :
  exists a,
    @AcmeParser.parse SpecHelpers.helpers (js "a+irq") = Returned a /\
    map (fun tk => (Token.type tk, tokStart tk, tokStop tk))
        (AbstractSyntaxTree.tokens a)
    = [(TokenType.Identifier, 0, 1); (TokenType.Identifier, 2, 5)].
Proof. vm_compute. eexists. split; reflexivity. Qed.

(** The definition examples: a label, and a name behind [!macro]. *)
Example label_line_defines_label :
  exists a,
    @AcmeParser.parse SpecHelpers.helpers
      (js "label: !byte 1" ++ [CharCode.LineFeed]) = Returned a /\
    AbstractSyntaxTree.definitions a
    = [Statement.mk StatementType.Definition_ 0 1] /\
    option_map Token.text
      (AbstractSyntaxTree.tokenAt (AbstractSyntaxTree.tokens a) 0)
    = Some (js "label").
Proof. vm_compute. eexists. split; [reflexivity | split; reflexivity]. Qed.

Example macro_line_defines_name :
  exists a,
    @AcmeParser.parse SpecHelpers.helpers
      (js "!macro foo" ++ [CharCode.LineFeed]) = Returned a /\
    AbstractSyntaxTree.definitions a
    = [Statement.mk StatementType.Definition_ 1 1] /\
    option_map Token.text
      (AbstractSyntaxTree.tokenAt (AbstractSyntaxTree.tokens a) 1)
    = Some (js "foo").
Proof. vm_compute. eexists. split; [reflexivity | split; reflexivity]. Qed.

(* ================================================================== *)
(** * Further properties of the code *)
(* ================================================================== *)

(** ** Directive search *)

Lemma fuzzySearch_as_filter (c : Z) (query : JsString) :
  AcmeGrammar.fuzzySearch (c :: query) =
    if c =? CharCode.Exclamation
    then match AcmeGrammar.matchingDirectives (c :: query) with
         | [] => None
         | found => Some found
         end
    else None.
Proof.
  unfold AcmeGrammar.fuzzySearch, AcmeGrammar.matchingDirectives.
  rewrite jsLength_cons_ltb.
  change (codeEq (charCodeAt (c :: query) 0) CharCode.Exclamation)
    with (c =? CharCode.Exclamation).
  destruct (c =? CharCode.Exclamation); [|reflexivity].
  rewrite collect_filter, app_nil_l.
  destruct (filter _ _) as [|found more]; [reflexivity|].
  now rewrite jsLength_cons_ltb.
Qed.

Lemma fuzzySearch_Some (query : JsString) (found : list JsString) :
  AcmeGrammar.fuzzySearch query = Some found ->
  found = AcmeGrammar.matchingDirectives query /\ found <> [] /\
  exists rest, query = CharCode.Exclamation :: rest.
Proof.
  destruct query as [|c query]; [discriminate|].
  rewrite fuzzySearch_as_filter.
  destruct (Z.eqb_spec c CharCode.Exclamation) as [->|]; [|discriminate].
  destruct (AcmeGrammar.matchingDirectives _) as [|x l] eqn:E; [discriminate|].
  intros H; injection H as <-. repeat split; [discriminate | eauto].
Qed.

Lemma startsWith_app (s q more : JsString) :
  startsWith s (q ++ more) = true -> startsWith s q = true.
Proof.
  revert s; induction q as [|y q IH]; intros s; [now destruct s|].
  destruct s as [|x s]; simpl; [discriminate|].
  rewrite !andb_true_iff. intros [E H]. split; [exact E | now apply IH].
Qed.

Lemma startsWith_refl (s : JsString) : startsWith s s = true.
Proof.
  induction s as [|x s IH]; [reflexivity|]. simpl.
  now rewrite Z.eqb_refl, IH.
Qed.

Lemma filter_filter_implied {A : Type} (f g : A -> bool) (l : list A) :
  (forall x, f x = true -> g x = true) ->
  filter f (filter g l) = filter f l.
Proof.
  intros Himp. induction l as [|x l IH]; [reflexivity|]. cbn [filter].
  destruct (g x) eqn:Hg; cbn [filter].
  - now rewrite IH.
  - destruct (f x) eqn:Hf; [|exact IH].
    apply Himp in Hf. congruence.
Qed.

(** X1.  Typing more of a directive narrows the answer: when the search
    for a query that extends a non-empty query [q] finds something, the
    search for [q] finds something too, and the longer query's answer is the
    answer for [q] filtered by the longer query, in the same order. *)
Theorem fuzzySearch_longer_query_filters (q more : JsString)
    (found : list JsString) :
  q <> [] ->
  AcmeGrammar.fuzzySearch (q ++ more) = Some found ->
  exists found0,
    AcmeGrammar.fuzzySearch q = Some found0 /\
    found = filter (fun candidate => startsWith candidate (q ++ more)) found0 /\
    incl found found0.
Proof.
  intros Hq Hfound.
  destruct q as [|c q]; [congruence|].
  apply fuzzySearch_Some in Hfound.
  destruct Hfound as (Heq & Hne & rest & Hbang).
  cbn [app] in Hbang. injection Hbang as -> _.
  rewrite fuzzySearch_as_filter, Z.eqb_refl.
  assert (Hfilter :
    found = filter (fun candidate => startsWith candidate
                                       ((CharCode.Exclamation :: q) ++ more))
                   (AcmeGrammar.matchingDirectives (CharCode.Exclamation :: q))).
  { rewrite Heq. unfold AcmeGrammar.matchingDirectives.
    symmetry. apply filter_filter_implied.
    intros x. apply startsWith_app. }
  destruct (AcmeGrammar.matchingDirectives (CharCode.Exclamation :: q))
    as [|x l] eqn:E.
  - cbn [filter] in Hfilter. congruence.
  - exists (x :: l). split; [reflexivity|]. split; [exact Hfilter|].
    rewrite Hfilter. intros y Hy. apply filter_In in Hy. tauto.
Qed.

Lemma pseudoOpcodes_NoDup : NoDup AcmeGrammar.pseudoOpcodes.
Proof.
  assert (E : nodup (list_eq_dec Z.eq_dec) AcmeGrammar.pseudoOpcodes
              = AcmeGrammar.pseudoOpcodes) by (vm_compute; reflexivity).
  rewrite <- E. apply NoDup_nodup.
Qed.

Lemma NoDup_map_prefix (c : Z) (l : list JsString) :
  NoDup l -> NoDup (map (fun name => c :: name) l).
Proof.
  induction 1 as [|x l Hx Hl IH]; cbn [map]; constructor; [|exact IH].
  intros Hin. apply in_map_iff in Hin. destruct Hin as (y & E & Hy).
  injection E as ->. contradiction.
Qed.

(** X2.  An answer of the directive search is never empty and holds no
    directive twice; each of its entries starts with the query and is a
    name of the vocabulary with [!] in front.  Every directive is found by
    its own full name. *)
Theorem fuzzySearch_sound_and_complete :
  (forall query found,
     AcmeGrammar.fuzzySearch query = Some found ->
     found <> [] /\ NoDup found /\
     forall x, In x found ->
       startsWith x query = true /\
       exists name, In name AcmeGrammar.pseudoOpcodes /\ x = js "!" ++ name) /\
  (forall name,
     In name AcmeGrammar.pseudoOpcodes ->
     exists found,
       AcmeGrammar.fuzzySearch (js "!" ++ name) = Some found /\
       In (js "!" ++ name) found).
Proof.
  split.
  - intros query found Hfound.
    apply fuzzySearch_Some in Hfound. destruct Hfound as (-> & Hne & _).
    split; [exact Hne|]. unfold AcmeGrammar.matchingDirectives. split.
    + apply NoDup_filter.
      apply (NoDup_map_prefix CharCode.Exclamation), pseudoOpcodes_NoDup.
    + intros x Hx. apply filter_In in Hx. destruct Hx as [Hin Hstarts].
      split; [exact Hstarts|]. apply in_map_iff in Hin.
      destruct Hin as (name & <- & Hname). eauto.
  - intros name Hname.
    change (js "!" ++ name) with (CharCode.Exclamation :: name).
    rewrite fuzzySearch_as_filter, Z.eqb_refl.
    assert (Hin : In (CharCode.Exclamation :: name)
                     (AcmeGrammar.matchingDirectives
                        (CharCode.Exclamation :: name))).
    { unfold AcmeGrammar.matchingDirectives. apply filter_In.
      split; [|apply startsWith_refl].
      apply in_map_iff. exists name. now split. }
    destruct (AcmeGrammar.matchingDirectives (CharCode.Exclamation :: name))
      as [|x l]; [destruct Hin|].
    exists (x :: l). now split.
Qed.

Section Coverage.
Context {helpers : Helpers}.
Import ParserIterator AcmeParser.

(** ** Failure of the classifier *)

(** X3.  The classifier leaves the tree as it is when the count is below
    one or the span [ofs, ofs + count) reaches beyond the token stream; on a
    span that ends inside the stream it throws exactly when the offset is
    negative (the read of [tokens[ofs].type] on [undefined]), and otherwise
    returns a tree with the same tokens. *)
Theorem lexer_throws_iff_negative_offset (a : AbstractSyntaxTree.t)
    (ofs count : Z) :
  (count < 1 \/ jsLength (AbstractSyntaxTree.tokens a) < ofs + count ->
   lexer a ofs count = Returned a) /\
  (1 <= count -> ofs + count <= jsLength (AbstractSyntaxTree.tokens a) ->
   (lexer a ofs count = Thrown <-> ofs < 0) /\
   (0 <= ofs ->
    exists a', lexer a ofs count = Returned a' /\
               AbstractSyntaxTree.tokens a' = AbstractSyntaxTree.tokens a)).
Proof.
  split.
  - intros Hout. unfold lexer.
    destruct (Z.ltb_spec count 1); [reflexivity|].
    destruct (Z.ltb_spec (jsLength (AbstractSyntaxTree.tokens a)) (ofs + count));
      [reflexivity | lia].
  - intros Hcount Hin.
    assert (Hok : 0 <= ofs ->
              exists a', lexer a ofs count = Returned a' /\
                         AbstractSyntaxTree.tokens a' = AbstractSyntaxTree.tokens a).
    { intros Hofs.
      destruct (lexer_cases a ofs count Hofs Hcount Hin)
        as (first & news & _ & Hlex & _).
      eexists. split; [exact Hlex | reflexivity]. }
    split; [|exact Hok]. split.
    + intros Hthrown. destruct (Z.lt_ge_cases ofs 0) as [|Hofs]; [assumption|].
      destruct (Hok Hofs) as (a' & Hret & _). congruence.
    + intros Hneg. unfold lexer.
      replace (count <? 1) with false by (symmetry; apply Z.ltb_ge; lia).
      replace (jsLength (AbstractSyntaxTree.tokens a) <? ofs + count) with false
        by (symmetry; apply Z.ltb_ge; lia).
      unfold AbstractSyntaxTree.tokenAt.
      replace (ofs <? 0) with true by (symmetry; apply Z.ltb_lt; lia).
      reflexivity.
Qed.

(** ** Position lookup *)

Lemma keepsExpandingLeft_stop (greedyParsing : bool) (c : option Z) :
  (if greedyParsing
   then onCode isWhitespace c
   else negb (codeEq c CharCode.Period) && negb (onCode isSymbolChar c))
  = negb (keepsExpandingLeft greedyParsing c).
Proof.
  unfold keepsExpandingLeft. destruct greedyParsing.
  - now rewrite negb_involutive.
  - now rewrite negb_orb.
Qed.

Lemma expandLeft_spec (greedyParsing : bool) (source : JsString) (fuel : nat) :
  forall startPos,
    startPos <= Z.of_nat fuel ->
    let r := expandLeft greedyParsing source fuel startPos in
    r <= startPos /\ (0 <= startPos -> 0 <= r) /\
    (forall p, r <= p < startPos ->
       keepsExpandingLeft greedyParsing (charCodeAt source p) = true) /\
    (0 < r ->
       keepsExpandingLeft greedyParsing (charCodeAt source (r - 1)) = false).
Proof.
  induction fuel as [|fuel IH]; intros startPos Hfuel; cbn [expandLeft].
  - cbv zeta. repeat split; try lia.
  - destruct (Z.ltb_spec 0 startPos) as [Hpos|Hnonpos].
    2:{ cbv zeta. repeat split; try lia. }
    rewrite keepsExpandingLeft_stop, looseEq_period_never.
    destruct (keepsExpandingLeft greedyParsing (charCodeAt source (startPos - 1)))
      eqn:Hkeep; cbn [negb].
    + destruct (IH (startPos - 1)) as (H1 & H2 & H3 & H4); [lia|].
      cbv zeta. split; [lia|]. split; [intros; apply H2; lia|].
      split; [|exact H4].
      intros p Hp. destruct (Z.eq_dec p (startPos - 1)) as [->|];
        [exact Hkeep | apply H3; lia].
    + cbv zeta. split; [lia|]. split; [lia|]. split; [intros; lia|].
      now intros _.
Qed.

(** X4.  The leftward loop of the position lookup, started at a
    non-negative offset, stops at a position between 0 and the offset;
    every character it went over passes the mode's test (in non-greedy mode:
    a period or a symbol-constituent character; in greedy mode: no white
    space), and it stopped at the start of the text or behind a character
    that fails the test.  In non-greedy mode a period never stops it. *)
Theorem expandLeft_goes_to_first_failing (greedyParsing : bool)
    (source : JsString) (offset : Z) :
  0 <= offset ->
  let startPos := expandLeft greedyParsing source (Z.to_nat offset) offset in
  0 <= startPos <= offset /\
  (forall p, startPos <= p < offset ->
     keepsExpandingLeft greedyParsing (charCodeAt source p) = true) /\
  (0 < startPos ->
     keepsExpandingLeft greedyParsing (charCodeAt source (startPos - 1)) = false).
Proof.
  intros Hofs.
  destruct (expandLeft_spec greedyParsing source (Z.to_nat offset) offset)
    as (H1 & H2 & H3 & H4); [lia|].
  cbv zeta. split; [split; [now apply H2 | exact H1]|]. split; assumption.
Qed.

Lemma expandRight_spec (source : JsString) (fuel : nat) :
  forall endPos,
    jsLength source - endPos <= Z.of_nat fuel ->
    let r := expandRight source fuel endPos in
    endPos <= r /\ (r <= jsLength source \/ r = endPos) /\
    (forall p, endPos <= p < r ->
       onCode isSymbolChar (charCodeAt source p) = true) /\
    (r < jsLength source ->
       onCode isSymbolChar (charCodeAt source r) = false).
Proof.
  induction fuel as [|fuel IH]; intros endPos Hfuel; cbn [expandRight].
  - cbv zeta. split; [lia|]. split; [now right|]. split; intros; lia.
  - destruct (Z.ltb_spec endPos (jsLength source)) as [Hin|Hout].
    2:{ cbv zeta. split; [lia|]. split; [now right|]. split; intros; lia. }
    destruct (onCode isSymbolChar (charCodeAt source endPos)) eqn:Hsym;
      cbn [negb].
    + destruct (IH (endPos + 1)) as (H1 & H2 & H3 & H4); [lia|].
      cbv zeta. split; [lia|]. split; [left; lia|]. split; [|exact H4].
      intros p Hp. destruct (Z.eq_dec p endPos) as [->|];
        [exact Hsym | apply H3; lia].
    + cbv zeta. split; [lia|]. split; [now right|]. split; [intros; lia|].
      now intros _.
Qed.

(** X5.  The rightward loop of the position lookup, started behind the
    offset, goes over symbol-constituent characters only and stops at the
    end of the text or at the first character that is not
    symbol-constituent; it never moves left and never leaves the text. *)
Theorem expandRight_goes_to_first_non_symbol (source : JsString) (endPos : Z) :
  let r := expandRight source (Z.to_nat (jsLength source - endPos)) endPos in
  endPos <= r /\ (r <= jsLength source \/ r = endPos) /\
  (forall p, endPos <= p < r ->
     onCode isSymbolChar (charCodeAt source p) = true) /\
  (r < jsLength source ->
     onCode isSymbolChar (charCodeAt source r) = false).
Proof. apply expandRight_spec. lia. Qed.

Lemma trimStart_split (l : JsString) :
  exists ws, l = ws ++ trimStart l /\ Forall (fun c => jsIsTrimSpace c = true) ws.
Proof.
  induction l as [|c l (ws & E & Hws)]; [exists []; now split|].
  cbn [trimStart]. destruct (jsIsTrimSpace c) eqn:Hc.
  - exists (c :: ws). split; [cbn [app]; now f_equal | now constructor].
  - exists []. now split.
Qed.

Lemma trimStart_head (l : JsString) (c : Z) (rest : JsString) :
  trimStart l = c :: rest -> jsIsTrimSpace c = false.
Proof.
  induction l as [|x l IH]; [discriminate|]. cbn [trimStart].
  destruct (jsIsTrimSpace x) eqn:Hx; [exact IH|].
  intros E; injection E as -> _. exact Hx.
Qed.

Lemma trim_split (l : JsString) :
  exists before after,
    l = before ++ trim l ++ after /\
    Forall (fun c => jsIsTrimSpace c = true) before /\
    Forall (fun c => jsIsTrimSpace c = true) after.
Proof.
  destruct (trimStart_split l) as (ws & E & Hws).
  destruct (trimStart_split (rev (trimStart l))) as (ws2 & E2 & Hws2).
  exists ws, (rev ws2). split; [|split; [exact Hws|]].
  - unfold trim. rewrite <- rev_app_distr, <- E2, rev_involutive. exact E.
  - apply Forall_forall. intros x Hx. apply in_rev in Hx.
    rewrite Forall_forall in Hws2. now apply Hws2.
Qed.

Lemma trim_ends (l : JsString) :
  (forall c rest, trim l = c :: rest -> jsIsTrimSpace c = false) /\
  (forall c front, trim l = front ++ [c] -> jsIsTrimSpace c = false).
Proof.
  split.
  - intros c rest E.
    destruct (trimStart_split (rev (trimStart l))) as (ws2 & E2 & _).
    assert (Hm : trimStart l = trim l ++ rev ws2).
    { unfold trim. rewrite <- rev_app_distr, <- E2. now rewrite rev_involutive. }
    rewrite E in Hm. cbn [app] in Hm. now apply trimStart_head in Hm.
  - intros c front E. unfold trim in E.
    apply (f_equal (@rev Z)) in E. rewrite rev_involutive, rev_unit in E.
    now apply trimStart_head in E.
Qed.

Lemma substring_split (s : JsString) (a b : Z) :
  exists before after, s = before ++ substring s a b ++ after.
Proof.
  unfold substring.
  match goal with
  | |- context [firstn ?k (skipn ?lo s)] =>
      exists (firstn lo s), (skipn k (skipn lo s))
  end.
  now rewrite firstn_skipn, firstn_skipn.
Qed.

Lemma substring_holds (s : JsString) (a b i c : Z) :
  a <= i < b -> charCodeAt s i = Some c -> In c (substring s a b).
Proof.
  intros Hi Hc. pose proof (charCodeAt_Some _ _ _ Hc) as Hin.
  unfold charCodeAt in Hc.
  destruct (Z.ltb_spec i 0); [lia|].
  unfold substring, clamp. cbv zeta.
  set (a' := Z.max 0 (Z.min a (jsLength s))).
  set (b' := Z.max 0 (Z.min b (jsLength s))).
  set (lo := Z.min a' b'). set (hi := Z.max a' b').
  assert (Hlo : 0 <= lo <= i) by (unfold lo, a', b'; lia).
  assert (Hhi : i < hi) by (unfold hi, a', b'; lia).
  apply (nth_error_In _ (Z.to_nat (i - lo))).
  rewrite nth_error_firstn.
  replace (Z.to_nat (i - lo) <? Z.to_nat (hi - lo))%nat with true
    by (symmetry; apply Nat.ltb_lt; lia).
  rewrite nth_error_skipn.
  replace (Z.to_nat lo + Z.to_nat (i - lo))%nat with (Z.to_nat i) by lia.
  exact Hc.
Qed.

(** X6.  An answer of the position lookup is never the empty string; it
    neither starts nor ends with white space; and it is a contiguous part
    of the line it was taken from. *)
Theorem lookup_answer_is_trimmed_part (source : JsString) (offset : Z)
    (leftOnly greedyParsing : bool) (token : JsString) :
  getTokenAtSourcePos source offset leftOnly greedyParsing = Some token ->
  token <> [] /\
  (forall c rest, token = c :: rest -> jsIsTrimSpace c = false) /\
  (forall c front, token = front ++ [c] -> jsIsTrimSpace c = false) /\
  exists before after, source = before ++ token ++ after.
Proof.
  unfold getTokenAtSourcePos.
  set (startPos := expandLeft _ _ _ _). set (endPos := if negb leftOnly then _ else _).
  destruct (Z.ltb_spec (jsLength (trim (substring source startPos endPos))) 1)
    as [|Hlen]; [discriminate|].
  intros E; injection E as <-.
  split; [intros E; rewrite E in Hlen; cbn in Hlen; lia|].
  destruct (trim_ends (substring source startPos endPos)) as [Hhead Hlast].
  split; [exact Hhead|]. split; [exact Hlast|].
  destruct (substring_split source startPos endPos) as (b1 & a1 & E1).
  destruct (trim_split (substring source startPos endPos)) as (b2 & a2 & E2 & _).
  exists (b1 ++ b2), (a2 ++ a1).
  rewrite E1 at 1. rewrite E2 at 1. now rewrite <- !app_assoc.
Qed.

(** X7.  At an offset inside the line whose character is not white space
    the position lookup always finds a token, and the token holds that
    character: whatever the two loops do, the span they leave reaches from
    at most the offset to at least the character behind it. *)
Theorem lookup_finds_character_at_offset (source : JsString) (offset c : Z)
    (leftOnly greedyParsing : bool) :
  charCodeAt source offset = Some c ->
  jsIsTrimSpace c = false ->
  exists token,
    getTokenAtSourcePos source offset leftOnly greedyParsing = Some token /\
    In c token.
Proof.
  intros Hc Hns. pose proof (charCodeAt_Some _ _ _ Hc) as Hin.
  unfold getTokenAtSourcePos.
  set (startPos := expandLeft _ _ _ _).
  set (endPos := if negb leftOnly then _ else _).
  assert (Hstart : startPos <= offset).
  { destruct (expandLeft_spec greedyParsing source (Z.to_nat offset) offset)
      as (H1 & _); [lia | exact H1]. }
  assert (Hend : offset + 1 <= endPos).
  { unfold endPos. destruct leftOnly; cbn [negb]; [lia|].
    destruct (expandRight_spec source
                (Z.to_nat (jsLength source - (offset + 1))) (offset + 1))
      as (H1 & _); [lia | exact H1]. }
  assert (Hraw : In c (substring source startPos endPos))
    by (apply (substring_holds source startPos endPos offset); [lia | exact Hc]).
  assert (Htrim : In c (trim (substring source startPos endPos))).
  { destruct (trim_split (substring source startPos endPos))
      as (b & a & E & Hb & Ha).
    rewrite E in Hraw. rewrite Forall_forall in Hb, Ha.
    apply in_app_or in Hraw. destruct Hraw as [Hraw|Hraw];
      [apply Hb in Hraw; congruence|].
    apply in_app_or in Hraw. destruct Hraw as [Hraw|Hraw];
      [exact Hraw | apply Ha in Hraw; congruence]. }
  destruct (trim (substring source startPos endPos)) as [|x token] eqn:E;
    [destruct Htrim|].
  rewrite jsLength_cons_ltb. exists (x :: token). now split.
Qed.

(** X8.  In non-greedy mode the position lookup at an offset beyond the end
    of the line answers "no token": the character before the offset does not
    exist, so neither loop moves and the span is empty. *)
Theorem lookup_beyond_end_is_null (source : JsString) (offset : Z)
    (leftOnly : bool) :
  jsLength source < offset ->
  getTokenAtSourcePos source offset leftOnly false = None.
Proof.
  intros Hbeyond.
  assert (Hlen : 0 <= jsLength source) by (unfold jsLength; lia).
  unfold getTokenAtSourcePos.
  assert (Hleft : expandLeft false source (Z.to_nat offset) offset = offset).
  { destruct (Z.to_nat offset) as [|fuel] eqn:Hfuel; [lia|].
    cbn [expandLeft].
    replace (0 <? offset) with true by (symmetry; apply Z.ltb_lt; lia).
    replace (charCodeAt source (offset - 1)) with (@None Z); [reflexivity|].
    symmetry. unfold charCodeAt.
    destruct (Z.ltb_spec (offset - 1) 0); [reflexivity|].
    apply nth_error_None. unfold jsLength in *. lia. }
  rewrite Hleft.
  replace (Z.to_nat (jsLength source - (offset + 1))) with 0%nat by lia.
  cbn [expandRight].
  replace (if negb leftOnly then offset + 1 else offset + 1) with (offset + 1)
    by now destruct leftOnly.
  unfold substring, clamp.
  replace (Z.to_nat (Z.max _ _ - Z.min _ _)) with 0%nat by lia.
  reflexivity.
Qed.

(** ** Shape of the tokens of one recognition step *)

Ltac fields :=
  unfold Range.inc, Range.new, Token.new,
         ParserIterator.next, ParserIterator.nextline in *;
  cbn [ParserIterator.ofs ParserIterator.row ParserIterator.col
       ParserIterator.src ParserIterator.len
       Range.offset Range.length Range.row Range.col
       Token.range Token.type Token.first Token.src] in *;
  unfold tokStart, tokStop, Range.stop in *;
  cbn [ParserIterator.ofs ParserIterator.row ParserIterator.col
       ParserIterator.src ParserIterator.len
       Range.offset Range.length Range.row Range.col
       Token.range Token.type Token.first Token.src] in *.

Lemma advanceLoop_row (cond : option Z -> bool) (s : JsString) (n : Z)
    (fuel : nat) :
  forall cur range cur' range',
    advanceLoop cond s n fuel cur range = (cur', range') ->
    row cur' = row cur /\ Range.row range' = Range.row range.
Proof.
  induction fuel as [|fuel IH]; intros cur range cur' range'; cbn [advanceLoop].
  - intros E; injection E as <- <-. now split.
  - destruct ((ofs cur <? n) && cond (charCodeAt s (ofs cur))).
    + intros E. apply IH in E. exact E.
    + intros E; injection E as <- <-. now split.
Qed.

Lemma codeEq_true (c : option Z) (k : Z) : codeEq c k = true -> c = Some k.
Proof.
  destruct c as [z|]; [|discriminate]. cbn [codeEq]. intros E.
  apply Z.eqb_eq in E. now subst.
Qed.

Lemma recognize_shape (s : JsString) (cur cur' : ParserIterator.t)
    (count : Z) (toks : list Token.t) :
  wfCursor s cur -> eof cur = false ->
  recognize s (jsLength s) cur count = (cur', toks) ->
  Forall (fun tk => Token.src tk = s /\ startsAsItsKind s tk /\ spanContent s tk)
         toks /\
  ((toks = [] /\ row cur' = row cur) \/
   (exists tk,
      toks = [tk] /\ Token.type tk <> TokenType.Reference /\
      Range.row (Token.range tk) = row cur /\
      row cur' = row cur
                 + (if TokenType.eqb (Token.type tk) TokenType.LineBreak
                    then 1 else 0)) \/
   (exists ref id,
      toks = [ref; id] /\ count = 0 /\
      Token.type ref = TokenType.Reference /\
      Token.type id = TokenType.Identifier /\
      Range.length (Token.range ref) = 1 /\
      tokStart id = tokStop ref /\
      Range.row (Token.range ref) = row cur /\
      Range.row (Token.range id) = row cur /\
      row cur' = row cur)).
Proof.
  intros Hwf He.
  destruct (peek_inside s cur Hwf He) as (Hlt & c & Hpeek & Hc).
  unfold recognize. rewrite Hpeek.
  set (c2 := if ofs cur + 1 <? jsLength s
             then charCodeAt s (ofs cur + 1) else Some 0).
  destruct (codeEq (Some c) CharCode.CarriageReturn
            || codeEq (Some c) CharCode.LineFeed) eqn:Hnl.
  { (* line break *)
    assert (Hkind : charCodeAt s (ofs cur) = Some CharCode.CarriageReturn \/
                    charCodeAt s (ofs cur) = Some CharCode.LineFeed).
    { rewrite Hc. apply orb_prop in Hnl.
      destruct Hnl as [E|E]; apply codeEq_true in E; [now left | now right]. }
    destruct (codeEq (Some c) CharCode.CarriageReturn
              && codeEq c2 CharCode.LineFeed);
      intros E; injection E as <- <-.
    all: split; [constructor; [|constructor];
                 split; [reflexivity|]; split; [exact Hkind | exact I]|].
    all: right; left; eexists; split; [reflexivity|].
    all: cbn; repeat split; discriminate. }
  destruct (codeEq (Some c) CharCode.Semicolon) eqn:Hsemi.
  { (* comment *)
    destruct (advanceWhile notLineEnd s (jsLength s) cur
                (Range.new (ofs cur) (row cur) (col cur))) as [it1 r1] eqn:Hadv.
    intros E; injection E as <- <-.
    pose proof (advanceWhile_spec _ _ _ _ _ _ Hwf Hadv)
      as (Hwf1 & Hle & Hoff & Hlen & Hstop & Hall).
    pose proof (advanceLoop_row _ _ _ _ _ _ _ _ Hadv) as [Hrow Hrrow].
    fields.
    split.
    - constructor; [|constructor]. split; [reflexivity|].
      unfold startsAsItsKind, spanContent; fields. rewrite Hoff, Hlen.
      split; [rewrite Hc; f_equal; now apply codeEq_true in Hsemi; injection Hsemi|].
      split; [intros p Hp; apply Hall; lia|].
      replace (ofs cur + (0 + (ofs it1 - ofs cur))) with (ofs it1) by lia.
      exact Hstop.
    - right; left. eexists. split; [reflexivity|]. fields.
      repeat split; [discriminate | exact Hrrow | cbn; lia]. }
  destruct (codeEq (Some c) CharCode.Plus && codeEq c2 CharCode.Plus) eqn:Hpp.
  { intros E; injection E as <- <-. split; [constructor|]. now left. }
  destruct (codeEq (Some c) CharCode.Period || codeEq (Some c) CharCode.Underscore
            || onCode isAlpha (Some c)
            || codeEq (Some c) CharCode.Plus && onCode isSymbolChar c2) eqn:Hid.
  { (* identifier *)
    destruct (codeEq (Some c) CharCode.Plus && onCode isSymbolChar c2) eqn:Hplus.
    - apply andb_prop in Hplus. destruct Hplus as [Hcplus Hsym].
      apply codeEq_true in Hcplus. injection Hcplus as ->.
      apply lookahead_symbol in Hsym. destruct Hsym as (Hlt2 & z2 & Hz2 & Hz2s).
      destruct (Z.eqb_spec count 0) as [Hcount|Hcount].
      + cbn [negb]. cbv iota beta.
        destruct (advanceWhile (onCode isSymbolChar) s (jsLength s) (next cur)
                    (Range.new (ofs (next cur)) (row (next cur)) (col (next cur))))
          as [it1 r1] eqn:Hadv.
        intros E; injection E as <- <-.
        pose proof (advanceWhile_spec _ _ _ _ _ _ (wfCursor_next _ _ Hwf Hlt) Hadv)
          as (Hwf1 & Hle & Hoff & Hlen & Hstop & Hall).
        pose proof (advanceLoop_row _ _ _ _ _ _ _ _ Hadv) as [Hrow Hrrow].
        fields.
        assert (Hmore : ofs cur + 1 < ofs it1).
        { destruct (Z.eq_dec (ofs it1) (ofs cur + 1)) as [Heq|]; [|lia].
          rewrite Heq in Hstop. specialize (Hstop Hlt2).
          rewrite Hz2 in Hstop. cbn in Hstop. congruence. }
        split.
        * constructor; [|constructor; [|constructor]].
          -- split; [reflexivity|]. unfold startsAsItsKind, spanContent; fields.
             now split.
          -- split; [reflexivity|]. unfold startsAsItsKind, spanContent; fields.
             rewrite Hoff, Hlen.
             split; [exists z2; split; [exact Hz2 | now right; right; right]|].
             split; [lia|]. split; [intros p Hp; apply Hall; lia|].
             replace (ofs cur + 1 + (0 + (ofs it1 - (ofs cur + 1))))
               with (ofs it1) by lia.
             exact Hstop.
        * right; right. eexists. eexists. split; [reflexivity|]. fields.
          rewrite Hoff.
          repeat split; try reflexivity; try assumption; lia.
      + cbn [negb]. cbv iota beta.
        destruct (advanceWhile (onCode isSymbolChar) s (jsLength s)
                    (next (next cur))
                    (Range.inc (Range.new (ofs (next cur)) (row (next cur))
                                          (col (next cur)))))
          as [it1 r1] eqn:Hadv.
        intros E; injection E as <- <-.
        assert (Hwf2 : wfCursor s (next (next cur)))
          by (apply wfCursor_next; [now apply wfCursor_next | cbn; lia]).
        pose proof (advanceWhile_spec _ _ _ _ _ _ Hwf2 Hadv)
          as (Hwf1 & Hle & Hoff & Hlen & Hstop & Hall).
        pose proof (advanceLoop_row _ _ _ _ _ _ _ _ Hadv) as [Hrow Hrrow].
        fields.
        split.
        * constructor; [|constructor].
          split; [reflexivity|]. unfold startsAsItsKind, spanContent; fields.
          rewrite Hoff, Hlen.
          split; [exists z2; split; [exact Hz2 | now right; right; right]|].
          split; [lia|]. split; [intros p Hp; apply Hall; lia|].
          replace (ofs cur + 1 + (0 + 1 + (ofs it1 - (ofs cur + 1 + 1))))
            with (ofs it1) by lia.
          exact Hstop.
        * right; left. eexists. split; [reflexivity|]. fields.
          repeat split; [discriminate | exact Hrrow | cbn; lia].
    - cbn [negb]. cbv iota beta.
      destruct (advanceWhile (onCode isSymbolChar) s (jsLength s) (next cur)
                  (Range.inc (Range.new (ofs cur) (row cur) (col cur))))
        as [it1 r1] eqn:Hadv.
      intros E; injection E as <- <-.
      pose proof (advanceWhile_spec _ _ _ _ _ _ (wfCursor_next _ _ Hwf Hlt) Hadv)
        as (Hwf1 & Hle & Hoff & Hlen & Hstop & Hall).
      pose proof (advanceLoop_row _ _ _ _ _ _ _ _ Hadv) as [Hrow Hrrow].
      fields.
      split.
      + constructor; [|constructor].
        split; [reflexivity|]. unfold startsAsItsKind, spanContent; fields.
        rewrite Hoff, Hlen.
        split.
        { exists c. split; [exact Hc|].
          rewrite orb_false_r in Hid.
          apply orb_prop in Hid. destruct Hid as [Hid|Hid]; [|now right; right; left].
          apply orb_prop in Hid. destruct Hid as [Hid|Hid];
            apply codeEq_true in Hid; injection Hid as ->; [now left | now right; left]. }
        split; [lia|]. split; [intros p Hp; apply Hall; lia|].
        replace (ofs cur + (0 + 1 + (ofs it1 - (ofs cur + 1))))
          with (ofs it1) by lia.
        exact Hstop.
      + right; left. eexists. split; [reflexivity|]. fields.
        repeat split; [discriminate | exact Hrrow | cbn; lia]. }
  destruct (codeEq (Some c) CharCode.Exclamation) eqn:Hbang.
  { (* macro *)
    destruct (advanceWhile (onCode isSymbolChar) s (jsLength s) (next cur)
                (Range.inc (Range.new (ofs cur) (row cur) (col cur))))
      as [it1 r1] eqn:Hadv.
    intros E; injection E as <- <-.
    pose proof (advanceWhile_spec _ _ _ _ _ _ (wfCursor_next _ _ Hwf Hlt) Hadv)
      as (Hwf1 & Hle & Hoff & Hlen & Hstop & Hall).
    pose proof (advanceLoop_row _ _ _ _ _ _ _ _ Hadv) as [Hrow Hrrow].
    fields.
    split.
    - constructor; [|constructor].
      split; [reflexivity|]. unfold startsAsItsKind, spanContent; fields.
      rewrite Hoff, Hlen.
      split; [rewrite Hc; now apply codeEq_true in Hbang|].
      split; [lia|]. split; [intros p Hp; apply Hall; lia|].
      replace (ofs cur + (0 + 1 + (ofs it1 - (ofs cur + 1))))
        with (ofs it1) by lia.
      exact Hstop.
    - right; left. eexists. split; [reflexivity|]. fields.
      repeat split; [discriminate | exact Hrrow | cbn; lia]. }
  destruct (codeEq (Some c) CharCode.SingleQuote
            || codeEq (Some c) CharCode.DoubleQuote) eqn:Hq.
  { (* string *)
    destruct (advanceWhile (notQuote (Some c)) s (jsLength s) (next cur)
                (Range.new (ofs (next cur)) (row (next cur)) (col (next cur))))
      as [it1 r1] eqn:Hadv.
    pose proof (advanceWhile_spec _ _ _ _ _ _ (wfCursor_next _ _ Hwf Hlt) Hadv)
      as (Hwf1 & Hle & Hoff & Hlen & Hstop & Hall).
    pose proof (advanceLoop_row _ _ _ _ _ _ _ _ Hadv) as [Hrow Hrrow].
    assert (Hshape :
      Token.src (Token.new TokenType.String s r1) = s /\
      startsAsItsKind s (Token.new TokenType.String s r1) /\
      spanContent s (Token.new TokenType.String s r1)).
    { split; [reflexivity|]. unfold startsAsItsKind, spanContent; fields.
      rewrite Hoff, Hlen.
      replace (ofs cur + 1 - 1) with (ofs cur) by lia. rewrite Hc.
      split.
      { apply orb_prop in Hq.
        destruct Hq as [E|E]; apply codeEq_true in E; [now left | now right]. }
      split.
      - intros p Hp Heq. specialize (Hall p ltac:(lia)).
        rewrite Heq in Hall. cbn in Hall. rewrite Z.eqb_refl in Hall.
        discriminate.
      - replace (ofs cur + 1 + (0 + (ofs it1 - (ofs cur + 1))))
          with (ofs it1) by lia.
        intros Hin. specialize (Hstop Hin). cbn [notQuote] in Hstop.
        apply negb_false_iff in Hstop. now apply codeEq_true in Hstop. }
    destruct (ofs it1 <? jsLength s);
      intros E; injection E as <- <-.
    all: split; [constructor; [exact Hshape | constructor]|].
    all: right; left; eexists; (split; [reflexivity|]); fields.
    all: repeat split; [discriminate | exact Hrrow | cbn; lia]. }
  intros E; injection E as <- <-. split; [constructor|]. now left.
Qed.

(** ** Effect of the bookkeeping on the tree *)

(** The classifier on a line that does not start with a Comment token. *)
Lemma lexer_line (a : AbstractSyntaxTree.t) (ofs count : Z) :
  0 <= ofs -> 1 <= count ->
  ofs + count <= jsLength (AbstractSyntaxTree.tokens a) ->
  (forall tk, AbstractSyntaxTree.tokenAt (AbstractSyntaxTree.tokens a) ofs = Some tk ->
              Token.type tk <> TokenType.Comment) ->
  exists news,
    lexer a ofs count =
      Returned (AbstractSyntaxTree.mk (AbstractSyntaxTree.tokens a)
                  (AbstractSyntaxTree.statements a ++ news)
                  (AbstractSyntaxTree.definitions a ++ news)) /\
    (news = [] \/
     exists off,
       news = [Statement.mk StatementType.Definition_ off 1] /\
       ofs <= off < ofs + count /\
       pointsToDefinedName (AbstractSyntaxTree.tokens a)
         (Statement.mk StatementType.Definition_ off 1)).
Proof.
  intros Hofs Hcount Hin Hnc.
  destruct (lexer_cases a ofs count Hofs Hcount Hin)
    as (first & news & Hat & Hlex & Hcases).
  exists news.
  destruct Hcases as [[[Hty Hop] ->]|[[Hcom _]|[[Hd ->]|(_ & _ & _ & ->)]]].
  - split; [exact Hlex|]. right. exists ofs. split; [reflexivity|].
    split; [lia|]. split; [reflexivity|]. split; [reflexivity|].
    exists first. now repeat split.
  - now destruct (Hnc first Hat).
  - split; [exact Hlex|]. right. exists (ofs + 1). split; [reflexivity|].
    destruct Hd as (Hmany & _ & _ & second & Hat2 & Hty2 & Hop2).
    split; [lia|]. split; [reflexivity|]. split; [reflexivity|].
    exists second. now repeat split.
  - split; [exact Hlex | now left].
Qed.

Lemma pointsToDefinedName_snoc (toks : list Token.t) (tk : Token.t)
    (x : Statement.t) :
  pointsToDefinedName toks x -> pointsToDefinedName (toks ++ [tk]) x.
Proof.
  intros (H1 & H2 & t & Hat & H3 & H4). split; [exact H1|]. split; [exact H2|].
  exists t. split; [|now split].
  rewrite tokenAt_app_l; [exact Hat|].
  unfold AbstractSyntaxTree.tokenAt in Hat.
  destruct (Z.ltb_spec (Statement.tokenOffset x) 0); [discriminate|].
  assert (Hn : nth_error toks (Z.to_nat (Statement.tokenOffset x)) <> None)
    by congruence.
  apply nth_error_Some in Hn. unfold jsLength. lia.
Qed.

(** What the loop body does to the tree and the counters, in a state that
    satisfies the stream invariant. *)
Lemma processToken_effect (st : state) (tok : Token.t) (lo : Z) :
  streamOk lo (tokensPerLineOfs st) (tokensPerLineCount st) (ast st) ->
  Token.first tok = false ->
  lo <= tokStart tok -> tokStart tok <= tokStop tok ->
  exists st' tok' news,
    processToken st tok = Returned st' /\ it st' = it st /\
    streamOk (tokStop tok) (tokensPerLineOfs st') (tokensPerLineCount st')
             (ast st') /\
    AbstractSyntaxTree.tokens (ast st')
      = AbstractSyntaxTree.tokens (ast st) ++ [tok'] /\
    flaggedCopy tok tok' /\
    AbstractSyntaxTree.statements (ast st')
      = AbstractSyntaxTree.statements (ast st) ++ news /\
    lineFloor st <= lineFloor st' /\
    Forall (fun x => pointsToDefinedName (AbstractSyntaxTree.tokens (ast st')) x /\
                     lineFloor st <= Statement.tokenOffset x < lineFloor st')
           news /\
    (news = [] \/ exists x, news = [x]).
Proof.
  intros Hok Hfirst Hlo Hspan.
  destruct (processToken_spec st tok lo Hok Hfirst Hlo Hspan)
    as (st' & Hrun & Hit & Hok' & Htoks).
  exists st'.
  exists (if tokensPerLineCount st =? 0 then Token.setFirstFlag tok else tok).
  set (tok' := if tokensPerLineCount st =? 0 then Token.setFirstFlag tok else tok)
    in *.
  assert (Hflagged : flaggedCopy tok tok')
    by (unfold tok', flaggedCopy; destruct (tokensPerLineCount st =? 0); auto).
  assert (Hty : Token.type tok' = Token.type tok)
    by (unfold tok'; now destruct (tokensPerLineCount st =? 0)).
  destruct Hok as (_ & (Hc0 & Hopen & Hsent & Hacc) & _).
  destruct st as [cur lineOfs count a].
  cbn [tokensPerLineOfs tokensPerLineCount ast it] in *.
  pose proof Hrun as Hrun0.
  unfold processToken in Hrun.
  cbn [tokensPerLineOfs tokensPerLineCount ast it] in Hrun.
  replace (if count =? 0
           then AbstractSyntaxTree.setFirstFlagOfLast
                  (AbstractSyntaxTree.addToken a tok)
           else AbstractSyntaxTree.addToken a tok)
    with (AbstractSyntaxTree.addToken a tok') in Hrun
    by (unfold tok'; destruct (count =? 0);
        [now rewrite setFirstFlagOfLast_addToken | reflexivity]).
  unfold lineFloor. cbn [tokensPerLineOfs tokensPerLineCount ast].
  destruct (isLineEndType (Token.type tok)) eqn:Hend.
  - destruct (Z.ltb_spec 0 count) as [Hpos|Hzero].
    + destruct (Hacc Hpos) as (Hofs & Hsum & Hnonend).
      destruct (lexer_line (AbstractSyntaxTree.addToken a tok') lineOfs count)
        as (news & Hlex & Hnews).
      * lia.
      * lia.
      * cbn [AbstractSyntaxTree.addToken AbstractSyntaxTree.tokens].
        rewrite jsLength_snoc. lia.
      * cbn [AbstractSyntaxTree.addToken AbstractSyntaxTree.tokens].
        intros tk Hat. rewrite tokenAt_app_l in Hat by lia.
        apply tokenAt_skipn in Hat.
        rewrite Forall_forall in Hnonend. specialize (Hnonend _ Hat).
        intros E. unfold isLineEndType in Hnonend. rewrite E in Hnonend.
        discriminate.
      * rewrite Hlex in Hrun. cbn [bind] in Hrun. injection Hrun as <-.
        exists news.
        cbn [tokensPerLineOfs tokensPerLineCount ast it
             AbstractSyntaxTree.addToken AbstractSyntaxTree.tokens
             AbstractSyntaxTree.statements] in *.
        split; [exact Hrun0|]. split; [reflexivity|]. split; [exact Hok'|].
        split; [reflexivity|]. split; [exact Hflagged|]. split; [reflexivity|].
        rewrite jsLength_snoc. change (0 <? 0) with false. cbv iota.
        split; [lia|]. split.
        -- destruct Hnews as [->|(off & -> & Hoff & Hpoints)]; [constructor|].
           constructor; [|constructor]. split; [exact Hpoints|].
           cbn [Statement.tokenOffset]. lia.
        -- destruct Hnews as [->|(off & -> & _)]; [now left | right; eauto].
    + assert (count = 0) by lia. subst count.
      injection Hrun as <-. exists [].
      cbn [tokensPerLineOfs tokensPerLineCount ast it
           AbstractSyntaxTree.addToken AbstractSyntaxTree.tokens
           AbstractSyntaxTree.statements] in *.
      split; [exact Hrun0|]. split; [reflexivity|]. split; [exact Hok'|].
      split; [reflexivity|]. split; [exact Hflagged|].
      split; [now rewrite app_nil_r|].
      rewrite jsLength_snoc. change (0 <? 0) with false. cbv iota.
      split; [lia|]. split; [constructor | now left].
  - injection Hrun as <-. exists [].
    cbn [tokensPerLineOfs tokensPerLineCount ast it
         AbstractSyntaxTree.addToken AbstractSyntaxTree.tokens
         AbstractSyntaxTree.statements] in *.
    split; [exact Hrun0|]. split; [reflexivity|]. split; [exact Hok'|].
    split; [reflexivity|]. split; [exact Hflagged|].
    split; [now rewrite app_nil_r|].
    split; [|split; [constructor | now left]].
    replace (0 <? count + 1) with true by (symmetry; apply Z.ltb_lt; lia).
    destruct (Z.ltb_spec 0 count) as [Hpos|Hzero].
    + destruct (Hacc Hpos) as (Hofs & _).
      replace (lineOfs =? -1) with false by (symmetry; apply Z.eqb_neq; lia).
      lia.
    + assert (count = 0) by lia. subst count.
      rewrite (Hsent eq_refl). change (-1 =? -1) with true. cbv iota.
      rewrite jsLength_snoc. lia.
Qed.

Lemma processTokens_effect (R : state -> Prop) :
  (forall st tok lo st',
     streamOk lo (tokensPerLineOfs st) (tokensPerLineCount st) (ast st) ->
     Token.first tok = false ->
     lo <= tokStart tok -> tokStart tok <= tokStop tok ->
     R st -> processToken st tok = Returned st' -> R st') ->
  forall toks st lo hi,
    streamOk lo (tokensPerLineOfs st) (tokensPerLineCount st) (ast st) ->
    chained lo toks hi ->
    Forall (fun tk => Token.first tk = false) toks ->
    R st ->
    exists st' toks',
      processTokens st toks = Returned st' /\ it st' = it st /\
      streamOk hi (tokensPerLineOfs st') (tokensPerLineCount st') (ast st') /\
      AbstractSyntaxTree.tokens (ast st')
        = AbstractSyntaxTree.tokens (ast st) ++ toks' /\
      Forall2 flaggedCopy toks toks' /\
      R st'.
Proof.
  intros Rstep toks.
  induction toks as [|tok toks IH]; intros st lo hi Hok Hch Hfresh HR.
  - exists st, []. split; [reflexivity|]. split; [reflexivity|].
    split; [now apply streamOk_weaken with (lo := lo)|].
    split; [now rewrite app_nil_r|]. split; [constructor | exact HR].
  - destruct Hch as (Hlo & Hspan & Hrest).
    inversion Hfresh as [|? ? Hfirst Hfresh']; subst.
    destruct (processToken_effect st tok lo Hok Hfirst Hlo Hspan)
      as (st1 & tok' & news & Hrun & Hit & Hok1 & Htoks & Hflag & _).
    pose proof (Rstep st tok lo st1 Hok Hfirst Hlo Hspan HR Hrun) as HR1.
    destruct (IH st1 (tokStop tok) hi Hok1 Hrest Hfresh' HR1)
      as (st2 & toks' & Hrun2 & Hit2 & Hok2 & Htoks2 & Hflags & HR2).
    exists st2, (tok' :: toks'). cbn [processTokens]. rewrite Hrun. cbn [bind].
    split; [exact Hrun2|]. split; [congruence|]. split; [exact Hok2|].
    split; [rewrite Htoks2, Htoks, <- app_assoc; reflexivity|].
    split; [now constructor | exact HR2].
Qed.

Lemma iteration_effect (R : state -> Prop) (s : JsString) :
  (forall st tok lo st',
     streamOk lo (tokensPerLineOfs st) (tokensPerLineCount st) (ast st) ->
     Token.first tok = false ->
     lo <= tokStart tok -> tokStart tok <= tokStop tok ->
     R st -> processToken st tok = Returned st' -> R st') ->
  (forall st cur,
     R st -> R (mkState cur (tokensPerLineOfs st) (tokensPerLineCount st) (ast st))) ->
  forall st,
    Inv s st -> eof (it st) = false -> R st ->
    exists cur' toks toks' st',
      recognize s (jsLength s) (it st) (tokensPerLineCount st) = (cur', toks) /\
      iteration s (jsLength s) st = Returned st' /\
      Inv s st' /\ it st' = cur' /\
      tokensPerLineCount st' >= 0 /\
      AbstractSyntaxTree.tokens (ast st')
        = AbstractSyntaxTree.tokens (ast st) ++ toks' /\
      Forall2 flaggedCopy toks toks' /\
      R st'.
Proof.
  intros Rstep Rcur st [Hwf Hok] He HR. unfold iteration.
  destruct (recognize s (jsLength s) (it st) (tokensPerLineCount st))
    as [cur' toks] eqn:Hrec.
  destruct (recognize_spec _ _ _ _ _ Hwf He Hrec) as (Hwf' & Hlt & Hch & Hfresh).
  destruct (processTokens_effect R Rstep toks
              (mkState cur' (tokensPerLineOfs st) (tokensPerLineCount st) (ast st))
              (ofs (it st)) (ofs cur') Hok Hch Hfresh (Rcur st cur' HR))
    as (st' & toks' & Hrun & Hit & Hok' & Htoks & Hflags & HR').
  cbn [it ast] in Hit, Htoks.
  exists cur', toks, toks', st'.
  split; [reflexivity|]. split; [exact Hrun|].
  split; [unfold Inv; rewrite Hit; now split|]. split; [exact Hit|].
  split; [destruct Hok' as (_ & (? & _) & _); lia|].
  split; [exact Htoks|]. split; [exact Hflags | exact HR'].
Qed.

Lemma mainLoop_invariant (Q : state -> Prop) (s : JsString) :
  (forall st st',
     Inv s st -> eof (it st) = false -> Q st ->
     iteration s (jsLength s) st = Returned st' -> Q st') ->
  forall fuel st st',
    Inv s st -> Q st ->
    mainLoop s (jsLength s) fuel st = Returned st' -> Q st'.
Proof.
  intros Hstep fuel.
  induction fuel as [|fuel IH]; intros st st' HInv HQ; cbn [mainLoop].
  - destruct (eof (it st)); [|discriminate]. intros E; injection E as <-.
    exact HQ.
  - destruct (eof (it st)) eqn:He.
    + intros E; injection E as <-. exact HQ.
    + destruct (iteration_spec s st HInv He) as (st1 & Hrun & HInv1 & _).
      rewrite Hrun. cbn [bind]. apply IH; [exact HInv1|].
      now apply (Hstep st).
Qed.

Lemma scan_invariant (Q : state -> Prop) (s : JsString) :
  Q (initialState s) ->
  (forall st st',
     Inv s st -> eof (it st) = false -> Q st ->
     iteration s (jsLength s) st = Returned st' -> Q st') ->
  exists st,
    scan s = Returned st /\ Inv s st /\ ofs (it st) = jsLength s /\ Q st.
Proof.
  intros Hinit Hstep.
  destruct (scan_returns s) as (st & Hscan & HInv & Hend).
  exists st. split; [exact Hscan|]. split; [exact HInv|]. split; [exact Hend|].
  apply (mainLoop_invariant Q s Hstep (List.length s) (initialState s));
    [apply initialState_Inv | exact Hinit | exact Hscan].
Qed.

(** ** Lists that grow at the end *)

Lemma snoc_split {A : Type} (l pre post : list A) (t x : A) :
  l ++ [t] = pre ++ x :: post ->
  (post = [] /\ pre = l /\ x = t) \/
  (exists post', post = post' ++ [t] /\ l = pre ++ x :: post').
Proof.
  intros E. destruct post as [|y post] using rev_ind.
  - left. apply app_inj_tail in E. destruct E as [<- <-]. now repeat split.
  - clear IHpost. right. exists post.
    rewrite app_comm_cons, app_assoc in E.
    apply app_inj_tail in E. destruct E as [-> ->]. now split.
Qed.

Lemma lineBreaksIn_snoc (toks : list Token.t) (tk : Token.t) :
  lineBreaksIn (toks ++ [tk])
  = lineBreaksIn toks
    + (if TokenType.eqb (Token.type tk) TokenType.LineBreak then 1 else 0).
Proof.
  unfold lineBreaksIn. rewrite filter_app. cbn [filter].
  destruct (TokenType.eqb (Token.type tk) TokenType.LineBreak).
  - now rewrite jsLength_snoc.
  - rewrite app_nil_r. lia.
Qed.

Lemma rowsCountLineBreaks_snoc (toks : list Token.t) (tk : Token.t) :
  rowsCountLineBreaks toks ->
  Range.row (Token.range tk) = lineBreaksIn toks ->
  rowsCountLineBreaks (toks ++ [tk]).
Proof.
  intros Hrows Hrow pre x post E.
  apply snoc_split in E.
  destruct E as [(_ & -> & ->)|(post' & _ & E)]; [exact Hrow|].
  now apply (Hrows pre x post').
Qed.

Lemma referenceLeadsIdentifier_snoc (toks : list Token.t) (tk : Token.t) :
  referenceLeadsIdentifier toks ->
  Token.type tk <> TokenType.Reference ->
  referenceLeadsIdentifier (toks ++ [tk]).
Proof.
  intros Href Hty pre x post E Hx.
  apply snoc_split in E.
  destruct E as [(_ & _ & ->)|(post' & -> & E)]; [contradiction|].
  destruct (Href pre x post' E Hx) as (H1 & H2 & id & rest & -> & H3 & H4).
  split; [exact H1|]. split; [exact H2|].
  exists id, (rest ++ [tk]). now repeat split.
Qed.

Lemma referenceLeadsIdentifier_pair (toks : list Token.t) (ref id : Token.t) :
  referenceLeadsIdentifier toks ->
  Token.type ref = TokenType.Reference -> Token.first ref = true ->
  Range.length (Token.range ref) = 1 ->
  Token.type id = TokenType.Identifier -> tokStart id = tokStop ref ->
  referenceLeadsIdentifier (toks ++ [ref; id]).
Proof.
  intros Href Hty Hfirst Hlen Hid Hadj pre x post E Hx.
  change (toks ++ [ref; id]) with (toks ++ [ref] ++ [id]) in E.
  rewrite app_assoc in E. apply snoc_split in E.
  destruct E as [(_ & _ & ->)|(post' & -> & E)]; [congruence|].
  apply snoc_split in E.
  destruct E as [(-> & -> & ->)|(post'' & -> & E)].
  - split; [exact Hfirst|]. split; [exact Hlen|].
    exists id, []. now repeat split.
  - destruct (Href pre x post'' E Hx) as (H1 & H2 & i & rest & -> & H3 & H4).
    split; [exact H1|]. split; [exact H2|].
    exists i, ((rest ++ [ref]) ++ [id]). now repeat split.
Qed.

(** ** Tokens of a whole parse *)

Lemma flaggedCopy_fields (t t' : Token.t) :
  flaggedCopy t t' ->
  Token.type t' = Token.type t /\ Token.range t' = Token.range t /\
  Token.src t' = Token.src t.
Proof. intros [-> | ->]; now repeat split. Qed.

Lemma flaggedCopy_shape (s : JsString) (t t' : Token.t) :
  flaggedCopy t t' ->
  Token.src t = s /\ startsAsItsKind s t /\ spanContent s t ->
  Token.src t' = s /\ startsAsItsKind s t' /\ spanContent s t'.
Proof. intros [-> | ->] H; exact H. Qed.

Lemma scan_tokens_shape (s : JsString) :
  exists st,
    scan s = Returned st /\ Inv s st /\ ofs (it st) = jsLength s /\
    Forall (fun tk => Token.src tk = s /\ startsAsItsKind s tk /\ spanContent s tk)
           (AbstractSyntaxTree.tokens (ast st)) /\
    rowsCountLineBreaks (AbstractSyntaxTree.tokens (ast st)) /\
    row (it st) = lineBreaksIn (AbstractSyntaxTree.tokens (ast st)) /\
    referenceLeadsIdentifier (AbstractSyntaxTree.tokens (ast st)).
Proof.
  apply (scan_invariant
           (fun st =>
              Forall (fun tk => Token.src tk = s /\ startsAsItsKind s tk
                                /\ spanContent s tk)
                     (AbstractSyntaxTree.tokens (ast st)) /\
              rowsCountLineBreaks (AbstractSyntaxTree.tokens (ast st)) /\
              row (it st) = lineBreaksIn (AbstractSyntaxTree.tokens (ast st)) /\
              referenceLeadsIdentifier (AbstractSyntaxTree.tokens (ast st)))).
  - cbn. split; [constructor|]. split; [|split; [reflexivity|]].
    + intros [|? ?] ? ? E; discriminate.
    + intros [|? ?] ? ? E; discriminate.
  - intros st st' HInv He (HF & Hrows & Hrow & Href) Hiter.
    destruct (iteration_effect (fun _ => True) s
                ltac:(intros; exact I) ltac:(intros; exact I) st HInv He I)
      as (cur' & toks & toks' & st1 & Hrec & Hrun & HInv1 & Hit & _ & Htoks
          & Hflags & _).
    rewrite Hrun in Hiter. injection Hiter as <-.
    pose proof HInv as [Hwf (_ & (Hc0 & Hopen & _) & _)].
    destruct (recognize_shape s (it st) cur' (tokensPerLineCount st) toks
                Hwf He Hrec) as (Hshape & Hcases).
    rewrite Htoks, Hit.
    destruct Hcases as [[-> Hr]|[(tk & -> & Hnr & Hrtk & Hr)
                                |(ref & id & -> & Hcount & Hty & Htyid & Hlen
                                  & Hadj & Hrref & Hrid & Hr)]].
    + inversion Hflags; subst. rewrite app_nil_r.
      split; [exact HF|]. split; [exact Hrows|]. split; [congruence | exact Href].
    + inversion Hflags as [|? tk' ? ? Hflag Hnil]; subst.
      inversion Hnil; subst.
      destruct (flaggedCopy_fields _ _ Hflag) as (Ety & Erange & _).
      inversion Hshape as [|? ? Htk _]; subst.
      split; [apply Forall_app; split; [exact HF|];
              constructor; [now apply (flaggedCopy_shape s tk) | constructor]|].
      split; [apply rowsCountLineBreaks_snoc; [exact Hrows|];
              rewrite Erange; congruence|].
      split; [rewrite lineBreaksIn_snoc, Ety; lia|].
      apply referenceLeadsIdentifier_snoc; [exact Href | congruence].
    + inversion Hflags as [|? ref' ? rest Hflag1 Hrest]; subst.
      inversion Hrest as [|? id' ? ? Hflag2 Hnil]; subst.
      inversion Hnil; subst.
      destruct (flaggedCopy_fields _ _ Hflag1) as (Ety1 & Erange1 & _).
      destruct (flaggedCopy_fields _ _ Hflag2) as (Ety2 & Erange2 & _).
      inversion Hshape as [|? ? Href1 Hshape2]; subst.
      inversion Hshape2 as [|? ? Hid1 _]; subst.
      assert (Hfirst : Token.first ref' = true).
      { destruct HInv1 as [_ (_ & _ & Hflagsok & _)].
        rewrite Htoks in Hflagsok.
        rewrite (Hflagsok (AbstractSyntaxTree.tokens (ast st)) ref' [id'] eq_refl).
        rewrite Hopen, Hcount. reflexivity. }
      split; [apply Forall_app; split; [exact HF|];
              constructor; [now apply (flaggedCopy_shape s ref)|];
              constructor; [now apply (flaggedCopy_shape s id) | constructor]|].
      assert (Hlb1 : lineBreaksIn (AbstractSyntaxTree.tokens (ast st) ++ [ref'])
                     = lineBreaksIn (AbstractSyntaxTree.tokens (ast st)))
        by (rewrite lineBreaksIn_snoc, Ety1, Hty; cbn; lia).
      change (AbstractSyntaxTree.tokens (ast st) ++ [ref'; id'])
        with (AbstractSyntaxTree.tokens (ast st) ++ [ref'] ++ [id']).
      rewrite app_assoc.
      split; [apply rowsCountLineBreaks_snoc;
              [apply rowsCountLineBreaks_snoc; [exact Hrows|];
               rewrite Erange1; congruence
              | rewrite Erange2, Hlb1; congruence]|].
      split; [rewrite lineBreaksIn_snoc, Hlb1, Ety2, Htyid; cbn; lia|].
      rewrite <- app_assoc.
      apply referenceLeadsIdentifier_pair; try assumption; try congruence.
      unfold tokStart, tokStop in *. rewrite Erange1, Erange2. exact Hadj.
Qed.

Lemma substring_inside_length (s : JsString) (a b : Z) :
  0 <= a -> a <= b -> b <= jsLength s ->
  jsLength (substring s a b) = b - a.
Proof.
  intros Ha Hab Hb. unfold substring, clamp. cbv zeta.
  replace (Z.max 0 (Z.min a (jsLength s))) with a by lia.
  replace (Z.max 0 (Z.min b (jsLength s))) with b by lia.
  replace (Z.min a b) with a by lia. replace (Z.max a b) with b by lia.
  unfold jsLength in *. rewrite length_firstn, length_skipn. lia.
Qed.

Lemma parse_tokens_shape (s : JsString) :
  exists st a,
    scan s = Returned st /\ parse s = Returned a /\
    AbstractSyntaxTree.tokens a = AbstractSyntaxTree.tokens (ast st) /\
    chained 0 (AbstractSyntaxTree.tokens a) (jsLength s) /\
    Forall (fun tk => Token.src tk = s /\ startsAsItsKind s tk /\ spanContent s tk)
           (AbstractSyntaxTree.tokens a) /\
    rowsCountLineBreaks (AbstractSyntaxTree.tokens a) /\
    row (it st) = lineBreaksIn (AbstractSyntaxTree.tokens a) /\
    referenceLeadsIdentifier (AbstractSyntaxTree.tokens a).
Proof.
  destruct (scan_tokens_shape s)
    as (st & Hscan & HInv & Hend & HF & Hrows & Hrow & Href).
  destruct (parse_returns s) as (st0 & a & Hscan0 & _ & _ & Hparse & Htoks & _).
  assert (st0 = st) by congruence. subst st0.
  exists st, a. rewrite Htoks.
  destruct HInv as [_ (Hch & _)]. rewrite Hend in Hch.
  split; [exact Hscan|]. split; [exact Hparse|]. split; [reflexivity|].
  split; [exact Hch|]. split; [exact HF|]. split; [exact Hrows|].
  split; [exact Hrow | exact Href].
Qed.

(** X9.  Every token of a parse lies in the parsed buffer and starts at a
    character of its kind: a LineBreak at CR or LF, a Comment at [;], a
    Macro at [!], a Reference at [+], an Identifier at a period, an
    underscore, an alphabetic or a symbol-constituent character, a String
    right behind a quote; and its text has as many characters as its span is
    long. *)
Theorem tokens_start_as_their_kind (s : JsString) :
  exists a,
    parse s = Returned a /\
    Forall (fun tk =>
              Token.src tk = s /\ startsAsItsKind s tk /\
              jsLength (Token.text tk) = Range.length (Token.range tk))
           (AbstractSyntaxTree.tokens a).
Proof.
  destruct (parse_tokens_shape s)
    as (st & a & _ & Hparse & _ & Hch & HF & _).
  exists a. split; [exact Hparse|].
  apply chained_bounds in Hch. destruct Hch as [_ Hbounds].
  rewrite Forall_forall in *. intros tk Hin.
  destruct (HF tk Hin) as (Hsrc & Hkind & _). specialize (Hbounds tk Hin).
  split; [exact Hsrc|]. split; [exact Hkind|].
  unfold Token.text. rewrite Hsrc.
  unfold tokStart, tokStop, Range.stop in Hbounds.
  rewrite substring_inside_length; unfold Range.stop; lia.
Qed.

(** X10.  The tokens of a parse are maximal: an Identifier or Macro token
    is not empty, goes on with symbol-constituent characters only and is not
    followed by one; a Comment token holds no CR or LF and ends at one or at
    the end of the buffer; a String token holds no quote of the kind that
    opened it and ends at that quote or at the end of the buffer. *)
Theorem token_spans_are_maximal (s : JsString) :
  exists a,
    parse s = Returned a /\
    Forall (spanContent s) (AbstractSyntaxTree.tokens a).
Proof.
  destruct (parse_tokens_shape s) as (st & a & _ & Hparse & _ & _ & HF & _).
  exists a. split; [exact Hparse|].
  eapply Forall_impl; [|exact HF]. cbn. tauto.
Qed.

(** X11.  The row of every token of a parse is the number of LineBreak
    tokens before it in the stream, and the cursor ends on the row that is
    the number of LineBreak tokens of the stream: rows are counted by the
    line breaks the scanner tokenises. *)
Theorem token_rows_count_line_breaks (s : JsString) :
  exists st a,
    scan s = Returned st /\ parse s = Returned a /\
    rowsCountLineBreaks (AbstractSyntaxTree.tokens a) /\
    row (it st) = lineBreaksIn (AbstractSyntaxTree.tokens a).
Proof.
  destruct (parse_tokens_shape s)
    as (st & a & Hscan & Hparse & _ & _ & _ & Hrows & Hrow & _).
  exists st, a. split; [exact Hscan|]. split; [exact Hparse|].
  split; [exact Hrows | exact Hrow].
Qed.

(** X12.  Every Reference token of a parse is flagged first on its line,
    spans one character, and is directly followed in the stream by an
    Identifier token that starts where the Reference token ends. *)
Theorem reference_token_leads_identifier (s : JsString) :
  exists a,
    parse s = Returned a /\
    referenceLeadsIdentifier (AbstractSyntaxTree.tokens a).
Proof.
  destruct (parse_tokens_shape s) as (st & a & _ & Hparse & _ & _ & _ & _ & _ & Href).
  exists a. now split.
Qed.

(** ** Statements of a whole parse *)

Lemma increasingOffsets_snoc (l : list Statement.t) (x : Statement.t) :
  increasingOffsets l ->
  Forall (fun y => Statement.tokenOffset y < Statement.tokenOffset x) l ->
  increasingOffsets (l ++ [x]).
Proof.
  intros Hinc Hx pre y post E.
  apply snoc_split in E.
  destruct E as [(_ & -> & ->)|(post' & _ & E)]; [exact Hx|].
  now apply (Hinc pre y post').
Qed.

Lemma statements_grow (toks : list Token.t) (old news : list Statement.t)
    (floor floor' : Z) :
  Forall (pointsToDefinedName toks) old ->
  increasingOffsets old ->
  Forall (fun x => Statement.tokenOffset x < floor) old ->
  floor <= floor' ->
  Forall (fun x => pointsToDefinedName toks x /\
                   floor <= Statement.tokenOffset x < floor') news ->
  news = [] \/ (exists x, news = [x]) ->
  Forall (pointsToDefinedName toks) (old ++ news) /\
  increasingOffsets (old ++ news) /\
  Forall (fun x => Statement.tokenOffset x < floor') (old ++ news).
Proof.
  intros Hpts Hinc Hlt Hfloor Hnews Hone.
  assert (Hold : Forall (fun x => Statement.tokenOffset x < floor') old)
    by (eapply Forall_impl; [|exact Hlt]; cbn; intros; lia).
  destruct Hone as [->|(x & ->)].
  - rewrite app_nil_r. now repeat split.
  - inversion Hnews as [|? ? [Hx Hoff] _]; subst.
    split; [apply Forall_app; split; [exact Hpts | now constructor]|].
    split.
    + apply increasingOffsets_snoc; [exact Hinc|].
      eapply Forall_impl; [|exact Hlt]. cbn. intros; lia.
    + apply Forall_app. split; [exact Hold|]. constructor; [lia | constructor].
Qed.

Lemma scan_statements_shape (s : JsString) :
  exists st,
    scan s = Returned st /\ Inv s st /\
    Forall (pointsToDefinedName (AbstractSyntaxTree.tokens (ast st)))
           (AbstractSyntaxTree.statements (ast st)) /\
    increasingOffsets (AbstractSyntaxTree.statements (ast st)) /\
    Forall (fun x => Statement.tokenOffset x < lineFloor st)
           (AbstractSyntaxTree.statements (ast st)).
Proof.
  set (R := fun st : state =>
              Forall (pointsToDefinedName (AbstractSyntaxTree.tokens (ast st)))
                     (AbstractSyntaxTree.statements (ast st)) /\
              increasingOffsets (AbstractSyntaxTree.statements (ast st)) /\
              Forall (fun x => Statement.tokenOffset x < lineFloor st)
                     (AbstractSyntaxTree.statements (ast st))).
  assert (Rstep : forall st tok lo st',
            streamOk lo (tokensPerLineOfs st) (tokensPerLineCount st) (ast st) ->
            Token.first tok = false ->
            lo <= tokStart tok -> tokStart tok <= tokStop tok ->
            R st -> processToken st tok = Returned st' -> R st').
  { intros st tok lo st' Hok Hfirst Hlo Hspan (Hpts & Hinc & Hlt) Hrun.
    destruct (processToken_effect st tok lo Hok Hfirst Hlo Hspan)
      as (st1 & tok' & news & Hrun1 & _ & _ & Htoks & _ & Hstmts & Hfloor
          & Hnews & Hone).
    rewrite Hrun1 in Hrun. injection Hrun as <-.
    unfold R. rewrite Hstmts.
    apply (statements_grow _ _ _ (lineFloor st)); try assumption.
    rewrite Htoks. eapply Forall_impl; [|exact Hpts].
    intros x. apply pointsToDefinedName_snoc. }
  assert (Rcur : forall st cur,
            R st ->
            R (mkState cur (tokensPerLineOfs st) (tokensPerLineCount st) (ast st)))
    by (intros [? ? ? ?] cur H; exact H).
  destruct (scan_invariant R s) as (st & Hscan & HInv & _ & HR).
  - unfold R. cbn. repeat split; try constructor.
    intros [|? ?] ? ? E; discriminate.
  - intros st st' HInv He HR Hiter.
    destruct (iteration_effect R s Rstep Rcur st HInv He HR)
      as (_ & _ & _ & st1 & _ & Hrun & _ & _ & _ & _ & _ & HR1).
    rewrite Hrun in Hiter. now injection Hiter as <-.
  - exists st. split; [exact Hscan|]. split; [exact HInv | exact HR].
Qed.

Lemma parse_statements_shape (s : JsString) :
  exists a,
    parse s = Returned a /\
    AbstractSyntaxTree.definitions a = AbstractSyntaxTree.statements a /\
    Forall (pointsToDefinedName (AbstractSyntaxTree.tokens a))
           (AbstractSyntaxTree.statements a) /\
    increasingOffsets (AbstractSyntaxTree.statements a) /\
    Forall (fun x => Statement.tokenOffset x
                     < jsLength (AbstractSyntaxTree.tokens a))
           (AbstractSyntaxTree.statements a).
Proof.
  destruct (scan_statements_shape s) as (st & Hscan & HInv & Hpts & Hinc & Hlt).
  destruct (parse_returns s) as (st0 & a & Hscan0 & _ & _ & Hparse & _ & Hdefs & _).
  assert (st0 = st) by congruence. subst st0.
  exists a. split; [exact Hparse|]. split; [exact Hdefs|].
  unfold parse in Hparse. rewrite Hscan in Hparse. cbn [bind] in Hparse.
  destruct HInv as [_ (_ & (Hc0 & _ & _ & Hacc) & _)].
  unfold lineFloor in Hlt.
  destruct (Z.ltb_spec 0 (tokensPerLineCount st)) as [Hpos|Hzero].
  - destruct (Hacc Hpos) as (Hofs & Hsum & Hnonend).
    destruct (lexer_line (ast st) (tokensPerLineOfs st) (tokensPerLineCount st))
      as (news & Hlex & Hnews); [lia | lia | lia | |].
    { intros tk Hat. apply tokenAt_skipn in Hat.
      rewrite Forall_forall in Hnonend. specialize (Hnonend _ Hat).
      intros E. unfold isLineEndType in Hnonend. rewrite E in Hnonend.
      discriminate. }
    rewrite Hlex in Hparse. injection Hparse as <-.
    cbn [AbstractSyntaxTree.tokens AbstractSyntaxTree.statements].
    apply (statements_grow _ _ _ (tokensPerLineOfs st)); try assumption.
    + lia.
    + destruct Hnews as [->|(off & -> & Hoff & Hx)]; [constructor|].
      constructor; [|constructor]. split; [exact Hx|].
      cbn [Statement.tokenOffset]. lia.
    + destruct Hnews as [->|(off & -> & _)]; [now left | right; eauto].
  - injection Hparse as <-. now repeat split.
Qed.

(** X13.  After a parse the definitions are exactly the statements, and
    every one of them is a Definition of a single token that is an
    Identifier token of the stream whose text is no opcode name. *)
Theorem definitions_name_identifiers (s : JsString) :
  exists a,
    parse s = Returned a /\
    AbstractSyntaxTree.definitions a = AbstractSyntaxTree.statements a /\
    Forall (pointsToDefinedName (AbstractSyntaxTree.tokens a))
           (AbstractSyntaxTree.definitions a).
Proof.
  destruct (parse_statements_shape s) as (a & Hparse & Hdefs & Hpts & _).
  exists a. split; [exact Hparse|]. split; [exact Hdefs|]. now rewrite Hdefs.
Qed.


(** ** Columns *)

Lemma advanceLoop_col (cond : option Z -> bool) (s : JsString) (n : Z)
    (fuel : nat) :
  forall cur range cur' range',
    advanceLoop cond s n fuel cur range = (cur', range') ->
    col cur' - col cur = ofs cur' - ofs cur /\
    Range.col range' = Range.col range.
Proof.
  induction fuel as [|fuel IH]; intros cur range cur' range'; cbn [advanceLoop].
  - intros E; injection E as <- <-. split; [lia | reflexivity].
  - destruct ((ofs cur <? n) && cond (charCodeAt s (ofs cur))).
    + intros E. apply IH in E. cbn [next ofs col Range.inc Range.col] in E.
      split; [lia | apply E].
    + intros E; injection E as <- <-. split; [lia | reflexivity].
Qed.

Lemma recognize_cols (s : JsString) (cur cur' : ParserIterator.t)
    (count : Z) (toks : list Token.t) :
  wfCursor s cur -> eof cur = false ->
  recognize s (jsLength s) cur count = (cur', toks) ->
  Forall (fun tk => Range.col (Token.range tk) - col cur = tokStart tk - ofs cur)
         toks /\
  ((exists lb,
      toks = [lb] /\ Token.type lb = TokenType.LineBreak /\ col cur' = 0 /\
      ofs cur' = tokStart lb + Range.length (Token.range lb) + 1) \/
   (Forall (fun tk => Token.type tk <> TokenType.LineBreak) toks /\
    col cur' - col cur = ofs cur' - ofs cur)).
Proof.
  intros Hwf He.
  destruct (peek_inside s cur Hwf He) as (Hlt & c & Hpeek & Hc).
  unfold recognize. rewrite Hpeek.
  set (c2 := if ofs cur + 1 <? jsLength s
             then charCodeAt s (ofs cur + 1) else Some 0).
  destruct (codeEq (Some c) CharCode.CarriageReturn
            || codeEq (Some c) CharCode.LineFeed).
  { destruct (codeEq (Some c) CharCode.CarriageReturn
              && codeEq c2 CharCode.LineFeed);
      intros E; injection E as <- <-.
    all: split; [constructor; [fields; lia | constructor]|].
    all: left; eexists; split; [reflexivity|]; fields.
    all: repeat split; lia. }
  destruct (codeEq (Some c) CharCode.Semicolon).
  { destruct (advanceWhile notLineEnd s (jsLength s) cur
                (Range.new (ofs cur) (row cur) (col cur))) as [it1 r1] eqn:Hadv.
    intros E; injection E as <- <-.
    pose proof (advanceWhile_spec _ _ _ _ _ _ Hwf Hadv) as (_ & _ & Hoff & _).
    pose proof (advanceLoop_col _ _ _ _ _ _ _ _ Hadv) as [Hcol Hrcol].
    fields.
    split; [constructor; [fields; lia | constructor]|].
    right. split; [constructor; [discriminate | constructor] | exact Hcol]. }
  destruct (codeEq (Some c) CharCode.Plus && codeEq c2 CharCode.Plus).
  { intros E; injection E as <- <-. split; [constructor|].
    right. split; [constructor | fields; lia]. }
  destruct (codeEq (Some c) CharCode.Period || codeEq (Some c) CharCode.Underscore
            || onCode isAlpha (Some c)
            || codeEq (Some c) CharCode.Plus && onCode isSymbolChar c2).
  { destruct (codeEq (Some c) CharCode.Plus && onCode isSymbolChar c2) eqn:Hplus.
    - apply andb_prop in Hplus. destruct Hplus as [_ Hsym].
      apply lookahead_symbol in Hsym. destruct Hsym as (Hlt2 & _).
      destruct (count =? 0).
      + cbn [negb]. cbv iota beta.
        destruct (advanceWhile (onCode isSymbolChar) s (jsLength s) (next cur)
                    (Range.new (ofs (next cur)) (row (next cur)) (col (next cur))))
          as [it1 r1] eqn:Hadv.
        intros E; injection E as <- <-.
        pose proof (advanceWhile_spec _ _ _ _ _ _ (wfCursor_next _ _ Hwf Hlt) Hadv)
          as (_ & _ & Hoff & _).
        pose proof (advanceLoop_col _ _ _ _ _ _ _ _ Hadv) as [Hcol Hrcol].
        fields.
        split; [constructor; [fields; lia|];
                constructor; [fields; lia | constructor]|].
        right. split; [|lia].
        constructor; [discriminate|]. constructor; [discriminate | constructor].
      + cbn [negb]. cbv iota beta.
        destruct (advanceWhile (onCode isSymbolChar) s (jsLength s)
                    (next (next cur))
                    (Range.inc (Range.new (ofs (next cur)) (row (next cur))
                                          (col (next cur)))))
          as [it1 r1] eqn:Hadv.
        intros E; injection E as <- <-.
        assert (Hwf2 : wfCursor s (next (next cur)))
          by (apply wfCursor_next; [now apply wfCursor_next | cbn; lia]).
        pose proof (advanceWhile_spec _ _ _ _ _ _ Hwf2 Hadv) as (_ & _ & Hoff & _).
        pose proof (advanceLoop_col _ _ _ _ _ _ _ _ Hadv) as [Hcol Hrcol].
        fields.
        split; [constructor; [fields; lia | constructor]|].
        right. split; [constructor; [discriminate | constructor] | lia].
    - cbn [negb]. cbv iota beta.
      destruct (advanceWhile (onCode isSymbolChar) s (jsLength s) (next cur)
                  (Range.inc (Range.new (ofs cur) (row cur) (col cur))))
        as [it1 r1] eqn:Hadv.
      intros E; injection E as <- <-.
      pose proof (advanceWhile_spec _ _ _ _ _ _ (wfCursor_next _ _ Hwf Hlt) Hadv)
        as (_ & _ & Hoff & _).
      pose proof (advanceLoop_col _ _ _ _ _ _ _ _ Hadv) as [Hcol Hrcol].
      fields.
      split; [constructor; [fields; lia | constructor]|].
      right. split; [constructor; [discriminate | constructor] | lia]. }
  destruct (codeEq (Some c) CharCode.Exclamation).
  { destruct (advanceWhile (onCode isSymbolChar) s (jsLength s) (next cur)
                (Range.inc (Range.new (ofs cur) (row cur) (col cur))))
      as [it1 r1] eqn:Hadv.
    intros E; injection E as <- <-.
    pose proof (advanceWhile_spec _ _ _ _ _ _ (wfCursor_next _ _ Hwf Hlt) Hadv)
      as (_ & _ & Hoff & _).
    pose proof (advanceLoop_col _ _ _ _ _ _ _ _ Hadv) as [Hcol Hrcol].
    fields.
    split; [constructor; [fields; lia | constructor]|].
    right. split; [constructor; [discriminate | constructor] | lia]. }
  destruct (codeEq (Some c) CharCode.SingleQuote
            || codeEq (Some c) CharCode.DoubleQuote).
  { destruct (advanceWhile (notQuote (Some c)) s (jsLength s) (next cur)
                (Range.new (ofs (next cur)) (row (next cur)) (col (next cur))))
      as [it1 r1] eqn:Hadv.
    pose proof (advanceWhile_spec _ _ _ _ _ _ (wfCursor_next _ _ Hwf Hlt) Hadv)
      as (_ & _ & Hoff & _).
    pose proof (advanceLoop_col _ _ _ _ _ _ _ _ Hadv) as [Hcol Hrcol].
    destruct (ofs it1 <? jsLength s);
      intros E; injection E as <- <-; fields.
    all: split; [constructor; [fields; lia | constructor]|].
    all: right; split; [constructor; [discriminate | constructor] | lia]. }
  intros E; injection E as <- <-. split; [constructor|].
  right. split; [constructor | fields; lia].
Qed.

Lemma lineStartAfter_snoc (toks : list Token.t) (tk : Token.t) :
  lineStartAfter (toks ++ [tk])
  = if TokenType.eqb (Token.type tk) TokenType.LineBreak
    then tokStart tk + Range.length (Token.range tk) + 1
    else lineStartAfter toks.
Proof. unfold lineStartAfter. now rewrite fold_left_app. Qed.

Lemma colsFromLineStart_snoc (toks : list Token.t) (tk : Token.t) :
  colsFromLineStart toks ->
  Range.col (Token.range tk) = tokStart tk - lineStartAfter toks ->
  colsFromLineStart (toks ++ [tk]).
Proof.
  intros Hcols Hcol pre x post E.
  apply snoc_split in E.
  destruct E as [(_ & -> & ->)|(post' & _ & E)]; [exact Hcol|].
  now apply (Hcols pre x post').
Qed.

Lemma cols_grow (toks news news' : list Token.t) (c o : Z) :
  colsFromLineStart toks ->
  c = o - lineStartAfter toks ->
  Forall2 flaggedCopy news news' ->
  Forall (fun tk => Range.col (Token.range tk) - c = tokStart tk - o) news ->
  Forall (fun tk => Token.type tk <> TokenType.LineBreak) news ->
  colsFromLineStart (toks ++ news') /\
  lineStartAfter (toks ++ news') = lineStartAfter toks.
Proof.
  intros Hcols Hc Hflags. revert toks Hcols Hc.
  induction Hflags as [|t t' news news' Hflag Hrest IH];
    intros toks Hcols Hc Hcol Hnlb.
  - rewrite app_nil_r. now split.
  - inversion Hcol as [|? ? Ht Hcol']; subst.
    inversion Hnlb as [|? ? Hty Hnlb']; subst.
    destruct (flaggedCopy_fields _ _ Hflag) as (Ety & Erange & _).
    assert (Hstart : lineStartAfter (toks ++ [t']) = lineStartAfter toks).
    { rewrite lineStartAfter_snoc, Ety.
      destruct (TokenType.eqb (Token.type t) TokenType.LineBreak) eqn:E;
        [|reflexivity].
      apply TokenType_eqb_eq in E. contradiction. }
    change (toks ++ t' :: news') with (toks ++ [t'] ++ news').
    rewrite app_assoc.
    destruct (IH (toks ++ [t'])) as [H1 H2]; try assumption.
    + apply colsFromLineStart_snoc; [exact Hcols|].
      unfold tokStart in *. rewrite Erange. lia.
    + now rewrite Hstart.
    + split; [exact H1 | now rewrite H2].
Qed.

Lemma scan_cols (s : JsString) :
  exists st,
    scan s = Returned st /\
    colsFromLineStart (AbstractSyntaxTree.tokens (ast st)) /\
    col (it st)
    = ofs (it st) - lineStartAfter (AbstractSyntaxTree.tokens (ast st)).
Proof.
  destruct (scan_invariant
              (fun st =>
                 colsFromLineStart (AbstractSyntaxTree.tokens (ast st)) /\
                 col (it st)
                 = ofs (it st)
                   - lineStartAfter (AbstractSyntaxTree.tokens (ast st))) s)
    as (st & Hscan & _ & _ & HQ).
  - cbn. split; [|reflexivity]. intros [|? ?] ? ? E; discriminate.
  - intros st st' HInv He (Hcols & Hcol) Hiter.
    destruct (iteration_effect (fun _ => True) s
                ltac:(intros; exact I) ltac:(intros; exact I) st HInv He I)
      as (cur' & toks & toks' & st1 & Hrec & Hrun & _ & Hit & _ & Htoks
          & Hflags & _).
    rewrite Hrun in Hiter. injection Hiter as <-.
    destruct HInv as [Hwf _].
    destruct (recognize_cols s (it st) cur' (tokensPerLineCount st) toks
                Hwf He Hrec) as (Htokcols & Hcases).
    rewrite Htoks, Hit.
    destruct Hcases as [(lb & -> & Hty & Hcol0 & Hofs)|[Hnlb Hmove]].
    + inversion Hflags as [|? lb' ? ? Hflag Hnil]; subst.
      inversion Hnil; subst.
      destruct (flaggedCopy_fields _ _ Hflag) as (Ety & Erange & _).
      inversion Htokcols as [|? ? Hlb _]; subst.
      split.
      * apply colsFromLineStart_snoc; [exact Hcols|].
        unfold tokStart in *. rewrite Erange. lia.
      * rewrite lineStartAfter_snoc, Ety, Hty. cbn [TokenType.eqb].
        unfold tokStart in *. rewrite Erange. lia.
    + destruct (cols_grow (AbstractSyntaxTree.tokens (ast st)) toks toks'
                  (col (it st)) (ofs (it st)) Hcols Hcol Hflags Htokcols Hnlb)
        as [H1 H2].
      split; [exact H1|]. rewrite H2. lia.
  - exists st. split; [exact Hscan | exact HQ].
Qed.

(** X15.  The column of every token of a parse is its offset from the
    start of its line, where a line starts at offset 0 or right behind the
    characters that the last LineBreak token before it stepped over; the
    cursor ends at the column that is its offset from the start of the last
    line. *)
Theorem token_columns_are_line_offsets (s : JsString) :
  exists st a,
    scan s = Returned st /\ parse s = Returned a /\
    colsFromLineStart (AbstractSyntaxTree.tokens a) /\
    col (it st)
    = jsLength s - lineStartAfter (AbstractSyntaxTree.tokens a).
Proof.
  destruct (scan_cols s) as (st & Hscan & Hcols & Hcol).
  destruct (parse_returns s)
    as (st0 & a & Hscan0 & _ & Hend & Hparse & Htoks & _).
  assert (st0 = st) by congruence. subst st0.
  exists st, a. rewrite Htoks, <- Hend.
  split; [exact Hscan|]. split; [exact Hparse|]. split; [exact Hcols | exact Hcol].
Qed.

End Coverage.

(** ** The further properties at concrete inputs *)

(** The query ["!a"] extended to ["!al"]. *)
Lemma fuzzySearch_longer_query_filters_witness :
  (js "!a" <> [] /\
   AcmeGrammar.fuzzySearch (js "!a" ++ js "l") = Some [js "!align"; js "!al"]) /\
  exists found0,
    AcmeGrammar.fuzzySearch (js "!a") = Some found0 /\
    [js "!align"; js "!al"]
    = filter (fun candidate => startsWith candidate (js "!a" ++ js "l")) found0 /\
    incl [js "!align"; js "!al"] found0.
Proof.
  assert (H : js "!a" <> [] /\
              AcmeGrammar.fuzzySearch (js "!a" ++ js "l")
              = Some [js "!align"; js "!al"])
    by (split; [discriminate | reflexivity]).
  split; [exact H|]. destruct H as [H1 H2].
  exact (fuzzySearch_longer_query_filters (js "!a") (js "l")
           [js "!align"; js "!al"] H1 H2).
Defined.

(** The leftward loop in ["lda .loop"] from offset 9, non-greedy. *)
Lemma expandLeft_goes_to_first_failing_witness :
  let source := js "lda .loop" in
  0 <= 9 /\
  let startPos :=
    @AcmeParser.expandLeft SpecHelpers.helpers false source (Z.to_nat 9) 9 in
  0 <= startPos <= 9 /\
  (forall p, startPos <= p < 9 ->
     @keepsExpandingLeft SpecHelpers.helpers false (charCodeAt source p) = true) /\
  (0 < startPos ->
     @keepsExpandingLeft SpecHelpers.helpers false
        (charCodeAt source (startPos - 1)) = false).
Proof.
  intros source. assert (H : 0 <= 9) by discriminate.
  split; [exact H|].
  exact (@expandLeft_goes_to_first_failing SpecHelpers.helpers false source 9 H).
Defined.

(** The lookup in ["lda .loop"] at offset 5. *)
Lemma lookup_answer_is_trimmed_part_witness :
  let source := js "lda .loop" in
  @AcmeParser.getTokenAtSourcePos SpecHelpers.helpers source 5 false false
  = Some (js ".loop") /\
  (js ".loop" <> [] /\
   (forall c rest, js ".loop" = c :: rest -> jsIsTrimSpace c = false) /\
   (forall c front, js ".loop" = front ++ [c] -> jsIsTrimSpace c = false) /\
   exists before after, source = before ++ js ".loop" ++ after).
Proof.
  intros source.
  assert (H : @AcmeParser.getTokenAtSourcePos SpecHelpers.helpers source 5
                false false = Some (js ".loop")) by reflexivity.
  split; [exact H|].
  exact (@lookup_answer_is_trimmed_part SpecHelpers.helpers source 5 false false
           (js ".loop") H).
Defined.

(** The lookup at the [l] of ["lda .loop"]. *)
Lemma lookup_finds_character_at_offset_witness :
  let source := js "lda .loop" in
  (charCodeAt source 5 = Some 108 /\ jsIsTrimSpace 108 = false) /\
  exists token,
    @AcmeParser.getTokenAtSourcePos SpecHelpers.helpers source 5 true true
    = Some token /\
    In 108 token.
Proof.
  intros source.
  assert (H : charCodeAt source 5 = Some 108 /\ jsIsTrimSpace 108 = false)
    by (split; reflexivity).
  split; [exact H|]. destruct H as [H1 H2].
  exact (@lookup_finds_character_at_offset SpecHelpers.helpers source 5 108
           true true H1 H2).
Defined.

(** The lookup two characters behind the end of ["lda"]. *)
Lemma lookup_beyond_end_is_null_witness :
  jsLength (js "lda") < 5 /\
  @AcmeParser.getTokenAtSourcePos SpecHelpers.helpers (js "lda") 5 false false
  = None.
Proof.
  assert (H : jsLength (js "lda") < 5) by reflexivity.
  split; [exact H|].
  exact (@lookup_beyond_end_is_null SpecHelpers.helpers (js "lda") 5 false H).
Defined.

(** The classifier called with the sentinel offset [-1] on a stream of
    one token. *)
Lemma lexer_throws_iff_negative_offset_witness :
  let a := AbstractSyntaxTree.mk
             [Token.mk TokenType.Identifier (js "x") (Range.mk 0 0 0 1) true]
             [] [] in
  @AcmeParser.lexer SpecHelpers.helpers a (-1) 1 = Thrown <-> -1 < 0.
Proof.
  intros a.
  apply (proj1 (proj2 (@lexer_throws_iff_negative_offset SpecHelpers.helpers
                         a (-1) 1)
                  ltac:(discriminate) ltac:(vm_compute; discriminate))).
Defined.
